(** * The cognitive-bias quiz of [app.py]: session state machine

    A shallow embedding of the quiz logic of [app.py] (data classes, loader,
    session helpers and button callbacks) together with the properties of
    its state machine.

    Modelling choices.
    - Python objects that are mutated through an alias ([ans = q.answers[i]]
      followed by [ans.value = ...]) live in an object store: the [answers]
      list of a quiz holds references, the store maps references to
      [Answer] records.
    - [st.session_state] is a record of three optional attributes: an
      attribute that was never assigned is [None].
    - every callback is a computation in a state-and-exception monad over
      the store; a raised exception keeps the mutations made before it.
    - the outside world seen by one callback (the three candidate files and
      the random generator) is an explicit argument. *)

From stdpp Require Import gmap strings list.
From Stdlib Require Import ZArith Lia Permutation.

Open Scope Z_scope.

(** ** Data models *)

Record CognitiveBias := {
  title : string;
  definition : string;
  is_authentic : bool;
  reference : string;
  category : string;
}.

(** One record of the ["biases"] array of a source file; every key may be
    missing ([data.get(key, default)]).  A key that is there has a value of
    the type the expected format gives it. *)
Record RawBias := {
  raw_title : option string;
  raw_definition : option string;
  raw_is_authentic : option bool;
  raw_reference : option string;
  raw_category : option string;
}.

(** [CognitiveBias.from_dict] *)
Definition from_dict (data : RawBias) : CognitiveBias :=
  {| title := default "" (raw_title data);
     definition := default "" (raw_definition data);
     is_authentic := default false (raw_is_authentic data);
     reference := default "" (raw_reference data);
     category := default "" (raw_category data) |}.

(** [Answer]: both attributes default to [None]. *)
Record Answer := {
  value : option bool;
  is_correct : option bool;
}.

Definition Answer_new : Answer := {| value := None; is_correct := None |}.

#[export] Instance Answer_inhabited : Inhabited Answer := populate Answer_new.

(** References to [Answer] objects. *)
Abbreviation loc := nat (only parsing).

Record Quiz := {
  biases : list CognitiveBias;
  answers : list loc;
  current_index : Z;
}.

(** [st.session_state]: the attributes ["quiz"], ["revealed"] and
    ["submitted"], each absent until first assigned. *)
Record Session := {
  quiz : option Quiz;
  revealed : option bool;
  submitted : option bool;
}.

Record Store := {
  heap : gmap loc Answer;
  next_loc : loc;
  session : Session;
}.

(** The outside world: what [open]/[json.load] finds under a file name, and
    the numbers the random generator is about to produce.  A [Document] is
    a JSON object whose ["biases"] value, when the key is there, is a list
    of records; the other cases are the ones in which loading raises. *)
Inductive FileContent :=
  | Malformed                                  (* json.JSONDecodeError *)
  | Document (biases_key : option (list RawBias))
  | NotObject        (* JSON that is no object: [.get] is an AttributeError *)
  | NotUtf8                                    (* UnicodeDecodeError *)
  | Directory                                  (* IsADirectoryError *)
  | Forbidden.                                 (* PermissionError *)

Record World := {
  files : gmap string FileContent;            (* absent: FileNotFoundError *)
  entropy : list nat;
}.

(** ** Python values *)

(** Truth value of an [Optional[bool]]: [None] and [False] are falsy. *)
Definition truthy (o : option bool) : bool := default false o.

(** [x is not None] *)
Definition is_not_None {A} (o : option A) : bool :=
  match o with Some _ => true | None => false end.

(** [xs[i]] for a Python [int] index: negative indices count from the end,
    anything else out of range is an [IndexError] (here [None]). *)
Definition py_index {A} (xs : list A) (i : Z) : option A :=
  if bool_decide (0 ≤ i) then xs !! Z.to_nat i
  else if bool_decide (- Z.of_nat (length xs) ≤ i)
       then xs !! Z.to_nat (Z.of_nat (length xs) + i)
       else None.

(** ** The state-and-exception monad of the callbacks *)

Inductive exn :=
  | StopException
  | AttributeError
  | IndexError
  | UnicodeDecodeError
  | IsADirectoryError
  | PermissionError.

#[export] Instance exn_eq_dec : EqDecision exn.
Proof. solve_decision. Defined.

Inductive outcome (A : Type) :=
  | Return (a : A)
  | Raise (e : exn).
Arguments Return {A} a.
Arguments Raise {A} e.

Definition M (A : Type) : Type := Store → outcome A * Store.

Definition ret {A} (a : A) : M A := λ st, (Return a, st).

Definition raise {A} (e : exn) : M A := λ st, (Raise e, st).

Definition bind {A B} (m : M A) (k : A → M B) : M B :=
  λ st, match m st with
        | (Return a, st') => k a st'
        | (Raise e, st') => (Raise e, st')
        end.

Notation "x <- m ;; k" := (bind m (λ x, k))
  (at level 100, m at next level, right associativity,
   format "'[v' x  <-  m  ;;  '/' k ']'").
Notation "m ;; k" := (bind m (λ _, k))
  (at level 100, right associativity,
   format "'[v' m  ;;  '/' k ']'").

(** [try: m except e: pass]; the result says whether an exception was
    passed over. *)
Definition try_except_pass (m : M unit) (e : exn) : M bool :=
  λ st, match m st with
        | (Raise e', st') =>
            if decide (e' = e) then (Return true, st') else (Raise e', st')
        | (Return _, st') => (Return false, st')
        end.

(** A result computed without the store, as a computation. *)
Definition lift {A} (r : outcome A) : M A := λ st, (r, st).

Definition get_session : M Session := λ st, (Return (session st), st).

Definition put_session (s : Session) : M unit :=
  λ st, (Return tt, {| heap := heap st; next_loc := next_loc st; session := s |}).

(** [state.name], an [AttributeError] when the attribute was never set. *)
Definition getattr {A} (field : Session → option A) : M A :=
  s <- get_session ;;
  match field s with
  | Some a => ret a
  | None => raise AttributeError
  end.

(** [xs[i]] as a computation. *)
Definition getitem {A} (xs : list A) (i : Z) : M A :=
  match py_index xs i with
  | Some a => ret a
  | None => raise IndexError
  end.

Definition set_quiz (q : Quiz) : M unit :=
  s <- get_session ;;
  put_session {| quiz := Some q; revealed := revealed s; submitted := submitted s |}.

Definition set_revealed (b : bool) : M unit :=
  s <- get_session ;;
  put_session {| quiz := quiz s; revealed := Some b; submitted := submitted s |}.

Definition set_submitted (b : bool) : M unit :=
  s <- get_session ;;
  put_session {| quiz := quiz s; revealed := revealed s; submitted := Some b |}.

(** [q.current_index = i] on the quiz object of the session. *)
Definition set_current_index (q : Quiz) (i : Z) : Quiz :=
  {| biases := biases q; answers := answers q; current_index := i |}.

(** Reading and writing [Answer] objects through a reference. *)
Definition read_answer (ans : loc) : M Answer :=
  λ st, (Return (heap st !!! ans), st).

Definition write_answer (ans : loc) (a : Answer) : M unit :=
  λ st, (Return tt,
         {| heap := <[ans := a]> (heap st);
            next_loc := next_loc st;
            session := session st |}).

(** [ans.value = v] *)
Definition setattr_value (ans : loc) (v : bool) : M unit :=
  a <- read_answer ans ;;
  write_answer ans {| value := Some v; is_correct := is_correct a |}.

(** [ans.is_correct = c] *)
Definition setattr_is_correct (ans : loc) (c : bool) : M unit :=
  a <- read_answer ans ;;
  write_answer ans {| value := value a; is_correct := Some c |}.

(** [Answer()]: a new object, at the next unused reference. *)
Definition new_Answer : M loc :=
  λ st, (Return (next_loc st),
         {| heap := <[next_loc st := Answer_new]> (heap st);
            next_loc := S (next_loc st);
            session := session st |}).

(** ** Data loading *)

(** [_try_and_load]: the ["biases"] list of the file, [[]] when the key or
    the file is missing or the file does not parse.  Only
    [FileNotFoundError] and [json.JSONDecodeError] are caught: any other
    exception of [open], [json.load] or [.get] leaves the function. *)
Definition _try_and_load (w : World) (fn : string) : outcome (list RawBias) :=
  match files w !! fn with
  | Some (Document (Some data)) => Return data
  | Some (Document None) => Return []
  | Some Malformed => Return []
  | None => Return []
  | Some NotObject => Raise AttributeError
  | Some NotUtf8 => Raise UnicodeDecodeError
  | Some Directory => Raise IsADirectoryError
  | Some Forbidden => Raise PermissionError
  end.

Definition filenames : list string :=
  ["./biases.json"; "./data/biases.json"; "./biases/data/biases.json"]%string.

(** The [for fn in filenames] loop: [data] is reassigned at every turn and
    the loop breaks at the first non-empty result; an exception of
    [_try_and_load] ends it. *)
Fixpoint load_loop (w : World) (fns : list string) (data : list RawBias)
  : outcome (list RawBias) :=
  match fns with
  | [] => Return data
  | fn :: fns' =>
      match _try_and_load w fn with
      | Raise e => Raise e
      | Return data =>
          match data with
          | _ :: _ => Return data
          | [] => load_loop w fns' data
          end
      end
  end.

(** [x[i], x[j] = x[j], x[i]] *)
Definition swap {A} (x : list A) (i j : nat) : list A :=
  match x !! i, x !! j with
  | Some a, Some b => <[j := a]> (<[i := b]> x)
  | _, _ => x
  end.

(** [random.shuffle], the library's in-place shuffle: for [i] from
    [len(x) - 1] down to [1], exchange [x[i]] with [x[j]] for a random [j]
    below [i + 1].  The generator is the list [rnd] of numbers still to
    come, each reduced below the bound it is asked for. *)
Fixpoint shuffle_from {A} (i : nat) (rnd : list nat) (x : list A) : list A :=
  match i with
  | O => x
  | S i' =>
      let j := Nat.modulo (hd O rnd) (S i) in
      shuffle_from i' (tl rnd) (swap x i j)
  end.

Definition shuffle {A} (rnd : list nat) (x : list A) : list A :=
  shuffle_from (length x - 1)%nat rnd x.

(** [limit: int = 10]; [create_quiz] never passes another one. *)
Definition default_limit : nat := 10.

(** [load_and_shuffle_data]: [st.stop()] raises [StopException];
    [data[:limit]] keeps the first [limit] records. *)
Definition load_and_shuffle_data (w : World) (limit : nat) : M (list RawBias) :=
  data <- lift (load_loop w filenames []) ;;
  match data with
  | [] => raise StopException
  | _ :: _ => ret (take limit (shuffle (entropy w) data))
  end.

(** [[Answer() for _ in biases]] *)
Fixpoint new_answers {A} (bs : list A) : M (list loc) :=
  match bs with
  | [] => ret []
  | _ :: bs' =>
      a <- new_Answer ;;
      rest <- new_answers bs' ;;
      ret (a :: rest)
  end.

Definition create_quiz (w : World) : M Quiz :=
  data <- load_and_shuffle_data w default_limit ;;
  let biases := from_dict <$> data in
  answers <- new_answers biases ;;
  ret {| biases := biases; answers := answers; current_index := 0 |}.

(** ** Helpers for session state *)

(** [get_state].  A [st.stop()] that was passed over by the [except] clause
    is not over: the stop request stays pending, and the next access to
    [st.session_state], the test for ["revealed"], raises [StopException]
    again. *)
Definition get_state (w : World) : M unit :=
  s <- get_session ;;
  stopped <- (match quiz s with
              | None =>
                  try_except_pass (q <- create_quiz w ;; set_quiz q)
                    StopException
              | Some _ => ret false
              end) ;;
  (if stopped : bool then raise StopException else ret tt) ;;
  s <- get_session ;;
  (match revealed s with
   | None => set_revealed false
   | Some _ => ret tt
   end) ;;
  s <- get_session ;;
  (match submitted s with
   | None => set_submitted false
   | Some _ => ret tt
   end).

Definition set_answer (w : World) (v : bool) : M unit :=
  get_state w ;;
  sub <- getattr submitted ;;
  if sub then ret tt else
  q <- getattr quiz ;;
  let i := current_index q in
  if bool_decide (Z.of_nat (length (biases q)) ≤ i) then ret tt else
  bias <- getitem (biases q) i ;;
  ans <- getitem (answers q) i ;;
  setattr_value ans v ;;
  setattr_is_correct ans (Bool.eqb v (is_authentic bias)) ;;
  set_revealed true.

Definition go_prev (w : World) : M unit :=
  get_state w ;;
  sub <- getattr submitted ;;
  if sub then ret tt else
  q <- getattr quiz ;;
  (if bool_decide (0 < current_index q)
   then set_quiz (set_current_index q (current_index q - 1))
   else ret tt) ;;
  q <- getattr quiz ;;
  ans <- getitem (answers q) (current_index q) ;;
  a <- read_answer ans ;;
  set_revealed (is_not_None (value a)).

Definition go_next (w : World) : M unit :=
  get_state w ;;
  sub <- getattr submitted ;;
  if sub then ret tt else
  q <- getattr quiz ;;
  (if bool_decide (current_index q < Z.of_nat (length (biases q)) - 1)
   then set_quiz (set_current_index q (current_index q + 1))
   else ret tt) ;;
  q <- getattr quiz ;;
  ans <- getitem (answers q) (current_index q) ;;
  a <- read_answer ans ;;
  set_revealed (is_not_None (value a)).

(** [all(a.value is not None for a in q.answers)] *)
Definition all_answered (q : Quiz) : M bool :=
  λ st, (Return (forallb (λ ans, is_not_None (value (heap st !!! ans))) (answers q)), st).

Definition restart_quiz (w : World) : M unit :=
  q <- create_quiz w ;;
  set_quiz q ;;
  set_revealed false ;;
  set_submitted false.

(** The [on_click] of the "View Results" button:
    [setattr(state, "submitted", True)]. *)
Definition submit : M unit := set_submitted true.

(** The two numbers of the final score line of [show_results]:
    [sum(1 for a in q.answers if a.is_correct)] and [len(q.biases)]. *)
Definition score (q : Quiz) : M (Z * Z) :=
  λ st,
    let total := Z.of_nat (length (biases q)) in
    let correct :=
      foldr (λ ans acc, if truthy (is_correct (heap st !!! ans)) then 1 + acc else acc)
            0 (answers q) in
    (Return (correct, total), st).

(** ** The session as a state machine *)

(** The user-interface events that run code of the quiz: a run of the page
    script (whose first statement is [get_state()]) and the five button
    callbacks. *)
Inductive action :=
  | Load
  | AnswerWith (v : bool)
  | Prev
  | Next
  | Submit
  | Restart.

#[export] Instance action_eq_dec : EqDecision action.
Proof. solve_decision. Defined.

Definition handler (w : World) (a : action) : M unit :=
  match a with
  | Load => get_state w
  | AnswerWith v => set_answer w v
  | Prev => go_prev w
  | Next => go_next w
  | Submit => submit
  | Restart => restart_quiz w
  end.

(** The store left behind by a sequence of events; an exception ends the
    event that raised it, not the session. *)
Fixpoint run (tr : list (World * action)) (st : Store) : Store :=
  match tr with
  | [] => st
  | (w, a) :: tr' => run tr' (snd (handler w a st))
  end.

(** A new session: nothing assigned, no object allocated. *)
Definition new_session : Session :=
  {| quiz := None; revealed := None; submitted := None |}.

Definition init_store : Store :=
  {| heap := ∅; next_loc := O; session := new_session |}.

Inductive reachable : Store → Prop :=
  | reachable_init : reachable init_store
  | reachable_step st w a :
      reachable st → reachable (snd (handler w a st)).

(** The sessions during which the files stay as they are; only the random
    generator differs from event to event. *)
Inductive reachable_with (fs : gmap string FileContent) : Store → Prop :=
  | reachable_with_init : reachable_with fs init_store
  | reachable_with_step st w a :
      files w = fs →
      reachable_with fs st → reachable_with fs (snd (handler w a st)).

(** A session in which the page has run and found data: the quiz is there
    and both flags are assigned. *)
Definition running (h : gmap loc Answer) (n : loc)
    (q : Quiz) (r s : bool) : Store :=
  {| heap := h; next_loc := n;
     session := {| quiz := Some q; revealed := Some r; submitted := Some s |} |}.

(** Observations: [answers[i]] and [claims[i]] of the quiz of the session. *)
Definition the_answer (st : Store) (i : nat) : option Answer :=
  match quiz (session st) with
  | Some q => (λ ans, heap st !!! ans) <$> answers q !! i
  | None => None
  end.

Definition the_claim (st : Store) (i : nat) : option CognitiveBias :=
  match quiz (session st) with
  | Some q => biases q !! i
  | None => None
  end.

(** [is_correct] is derived from [value] and the claim. *)
Definition consistent (b : CognitiveBias) (a : Answer) : Prop :=
  is_correct a = (λ v, Bool.eqb v (is_authentic b)) <$> value a.

(** What every quiz built by [create_quiz] and moved by the callbacks
    satisfies. *)
Record wf_quiz (q : Quiz) : Prop := {
  wf_length : length (answers q) = length (biases q);
  wf_distinct : NoDup (answers q);
  wf_index : 0 ≤ current_index q < Z.of_nat (length (biases q));
}.

Record Inv (st : Store) : Prop := {
  Inv_wf q : quiz (session st) = Some q → wf_quiz q;
  Inv_consistent q i b ans :
    quiz (session st) = Some q →
    biases q !! i = Some b → answers q !! i = Some ans →
    consistent b (heap st !!! ans);
  Inv_revealed q :
    quiz (session st) = Some q →
    ∃ ans, answers q !! Z.to_nat (current_index q) = Some ans
           ∧ revealed (session st)
             = Some (is_not_None (value (heap st !!! ans)));
  Inv_no_quiz :
    quiz (session st) = None → revealed (session st) ≠ Some true;
}.

(** What the loop of the loader ends with. *)
Definition loader_result (w : World) : outcome (list RawBias) :=
  load_loop w filenames [].

(** The data the loader settles on before shuffling: none when no candidate
    yields a record, and none when loading a candidate raises. *)
Definition loader_data (w : World) : list RawBias :=
  match loader_result w with
  | Return data => data
  | Raise _ => []
  end.

(** The exception [load_and_shuffle_data] raises when the loader settles on
    no data: the one of the candidate that could not be loaded, or the
    [StopException] of [st.stop()]. *)
Definition loader_exn (w : World) : exn :=
  match loader_result w with
  | Return _ => StopException
  | Raise e => e
  end.

(** The number of answers [score] counts, in the words of the description:
    those whose [is_correct] is true. *)
Definition count_correct (h : gmap loc Answer) (q : Quiz) : nat :=
  length (filter (λ ans, is_correct (h !!! ans) = Some true) (answers q)).

(** The number of questions whose answer is set and agrees with the claim. *)
Definition count_matching (h : gmap loc Answer) (q : Quiz) : nat :=
  length (filter (λ p, value (h !!! p.2) = Some (is_authentic p.1))
                 (zip (biases q) (answers q))).

(** ** The stores the loader and the callbacks produce *)

(** The store after [n] calls of [Answer()]. *)
Definition allocated (n : nat) (st : Store) : Store :=
  {| heap := foldr (λ ans h, <[ans := Answer_new]> h) (heap st)
                   (reverse (seq (next_loc st) n));
     next_loc := (next_loc st + n)%nat;
     session := session st |}.
Arguments allocated : simpl never.

Definition with_session (st : Store) (s : Session) : Store :=
  {| heap := heap st; next_loc := next_loc st; session := s |}.

(** The claims of a new quiz, and the quiz itself. *)
Definition created_biases (w : World) : list CognitiveBias :=
  from_dict <$> take default_limit (shuffle (entropy w) (loader_data w)).

Definition created_quiz (w : World) (st : Store) : Quiz :=
  {| biases := created_biases w;
     answers := seq (next_loc st) (length (created_biases w));
     current_index := 0 |}.

(** [get_state] assigns [False] to a flag that is absent. *)
Definition defaults (s : Session) : Session :=
  {| quiz := quiz s;
     revealed := Some (default false (revealed s));
     submitted := Some (default false (submitted s)) |}.

(** The store [get_state] leaves: unchanged when it raises. *)
Definition after_get_state (w : World) (st : Store) : Store :=
  match quiz (session st), loader_data w with
  | None, _ :: _ =>
      with_session (allocated (length (created_biases w)) st)
        (defaults {| quiz := Some (created_quiz w st);
                     revealed := revealed (session st);
                     submitted := submitted (session st) |})
  | None, [] => st
  | Some _, _ => with_session st (defaults (session st))
  end.

(** [set_answer] past its guards: both assignments land in the one object
    that [answers[i]] refers to. *)
Definition answered (h : gmap loc Answer) (ans : loc) (v : bool)
    (bias : CognitiveBias) : gmap loc Answer :=
  <[ans := {| value := Some v;
              is_correct := Some (Bool.eqb v (is_authentic bias)) |}]> h.

(** The navigation callbacks: the cursor moves first, then [revealed] is
    recomputed from the answer under the cursor. *)
Definition look (h : gmap loc Answer) (n : loc) (q : Quiz) (r : bool)
  : outcome unit * Store :=
  match py_index (answers q) (current_index q) with
  | Some ans =>
      (Return tt, running h n q (is_not_None (value (h !!! ans))) false)
  | None => (Raise IndexError, running h n q r false)
  end.

(** The three callbacks whose first statement is [get_state()]. *)
Definition is_callback (a : action) : Prop :=
  match a with AnswerWith _ | Prev | Next => True | _ => False end.

(** ** Worlds and quizzes for the examples *)

(** A source record that has a title and a truth value only. *)
Definition raw (t : string) (authentic : bool) : RawBias :=
  {| raw_title := Some t; raw_definition := None;
     raw_is_authentic := Some authentic;
     raw_reference := None; raw_category := None |}.

(** One source file with the three claims of the worked example, and a
    generator whose numbers leave the order of the file unchanged. *)
Definition example_world : World :=
  {| files := {[ "./data/biases.json"%string :=
                   Document (Some [raw "Anchoring bias" true;
                                   raw "Lunar recall effect" false;
                                   raw "Confirmation bias" true]) ]};
     entropy := [2; 1]%nat |}.

(** A world in which no candidate file can be read. *)
Definition empty_world : World :=
  {| files := {[ "./biases.json"%string := Malformed ]}; entropy := [] |}.

(** The claims that [create_quiz] builds from [example_world]. *)
Definition example_biases : list CognitiveBias :=
  [from_dict (raw "Anchoring bias" true);
   from_dict (raw "Lunar recall effect" false);
   from_dict (raw "Confirmation bias" true)].

(** Three answer objects; only the middle one has a value. *)
Definition example_heap : gmap loc Answer :=
  {[ 0%nat := Answer_new;
     1%nat := {| value := Some true; is_correct := Some false |};
     2%nat := Answer_new ]}.

(** The quiz over these claims and answers with the cursor at [i]. *)
Definition example_quiz (i : Z) : Quiz :=
  {| biases := example_biases; answers := [0; 1; 2]%nat; current_index := i |}.

(** The session of the worked example: the page loads the three claims
    (authentic, fake, authentic), the user answers "authentic", moves on,
    answers "authentic", moves on and answers "fake". *)
Definition example_trace : list (World * action) :=
  [(example_world, Load);
   (example_world, AnswerWith true); (example_world, Next);
   (example_world, AnswerWith true); (example_world, Next);
   (example_world, AnswerWith false)].

(** A quiz of one claim whose cursor is [-1]. *)
Definition stray_quiz : Quiz :=
  {| biases := [from_dict (raw "Anchoring bias" true)];
     answers := [0%nat]; current_index := -1 |}.

(** A quiz of one claim whose answer is the answered object of
    [example_heap]. *)
Definition single_quiz : Quiz :=
  {| biases := [from_dict (raw "Lunar recall effect" false)];
     answers := [1%nat]; current_index := 0 |}.

(** ** The page *)

(** One row of the results list of [show_results]: the verdict, the label
    the user chose and the label that was expected. *)
Definition result_row (bias : CognitiveBias) (a : Answer)
  : string * string * string :=
  let chosen :=
    if truthy (value a) then "Authentic"
    else if is_not_None (value a) then "Fake" else "—" in
  let expected := if is_authentic bias then "Authentic" else "Fake" in
  let verdict :=
    if truthy (is_correct a) then "✅ Correct" else "❌ Incorrect" in
  (verdict, chosen, expected).

(** The rows of [show_results], one for each pair of
    [zip(q.biases, q.answers)]. *)
Definition result_rows (q : Quiz) : M (list (string * string * string)) :=
  λ st, (Return ((λ p, result_row p.1 (heap st !!! p.2))
                   <$> zip (biases q) (answers q)), st).

(** [show_quiz_view]: the buttons it renders enabled, each named by the
    event its click runs.  Text, captions and the progress bar are output
    only and left out.  The second [q] is the one of [q: Quiz = state.quiz],
    read from the session. *)
Definition show_quiz_view (q : Quiz) (revealed : bool) : M (list action) :=
  let i := current_index q in
  let total := Z.of_nat (length (biases q)) in
  bias <- getitem (biases q) i ;;
  ans <- getitem (answers q) i ;;
  let choice := if revealed then [] else [AnswerWith true; AnswerWith false] in
  q <- getattr quiz ;;
  done <- all_answered q ;;
  ret (choice ++
       if done then []
       else (if bool_decide (i = 0) then [] else [Prev])
            ++ (if bool_decide (i = total - 1) then [] else [Next])).

(** The page script, from [state = get_state()] on: the enabled buttons of
    one run.  Without a quiz the run would end at the [st.stop()] after the
    explanation; a submitted session shows the results and the restart
    button. *)
Definition page (w : World) : M (list action) :=
  get_state w ;;
  s <- get_session ;;
  match quiz s with
  | None => raise StopException
  | Some q =>
      sub <- getattr submitted ;;
      if sub then
        result_rows q ;;
        ret [Restart]
      else
        r <- getattr revealed ;;
        controls <- show_quiz_view q r ;;
        done <- all_answered q ;;
        ret (controls ++ if done then [Submit] else [])
  end.

(** One run of the page: the buttons that can be clicked afterwards (none
    when the run ends in an exception) and the store it leaves. *)
Definition render (w : World) (st : Store) : list action * Store :=
  match page w st with
  | (Return cs, st') => (cs, st')
  | (Raise _, st') => ([], st')
  end.

(** A click: the callback runs and, when it returns, the page runs again.
    An exception out of the callback ends the run before the page, so that
    nothing is rendered. *)
Definition click (w w' : World) (a : action) (st : Store)
  : list action * Store :=
  match handler w a st with
  | (Return _, st') => render w' st'
  | (Raise _, st') => ([], st')
  end.

(** The sessions a user can drive: the page runs, and then again after
    every click on one of the buttons of the last run, or when the user
    asks for a rerun. *)
Inductive ui_reachable : Store → list action → Prop :=
  | ui_open w :
      ui_reachable (render w init_store).2 (render w init_store).1
  | ui_click st cs a w w' :
      ui_reachable st cs → a ∈ cs →
      ui_reachable (click w w' a st).2 (click w w' a st).1
  | ui_rerun st cs w :
      ui_reachable st cs →
      ui_reachable (render w st).2 (render w st).1.

(** The buttons of a session that has a quiz, as a function of the store. *)
Definition controls (h : gmap loc Answer) (q : Quiz) (r s : bool)
  : list action :=
  let done := forallb (λ ans, is_not_None (value (h !!! ans))) (answers q) in
  if s then [Restart]
  else ((if r then [] else [AnswerWith true; AnswerWith false])
        ++ if done then []
           else (if bool_decide (current_index q = 0) then [] else [Prev])
                ++ (if bool_decide (current_index q
                                    = Z.of_nat (length (biases q)) - 1)
                    then [] else [Next]))
       ++ if done then [Submit] else [].

(** What holds of a session between two clicks. *)
Definition ui_Inv (st : Store) (cs : list action) : Prop :=
  Inv st
  ∧ ((st = init_store ∧ cs = [])
     ∨ ∃ h n q r s,
         st = running h n q r s ∧ (cs = controls h q r s ∨ cs = [])
         ∧ (s = true →
            forallb (λ ans, is_not_None (value (h !!! ans))) (answers q)
            = true)).

(** A session driven by the clicks of a list, as long as each of them is on
    a button of the run before it. *)
Fixpoint ui_run (w : World) (clicks : list action)
    (p : list action * Store) : option (list action * Store) :=
  match clicks with
  | [] => Some p
  | a :: clicks' =>
      if bool_decide (a ∈ p.1)
      then ui_run w clicks' (click w w a p.2)
      else None
  end.

(** The session of the worked example as the user drives it, up to the
    click on "View Results". *)
Definition example_clicks : list action :=
  [AnswerWith true; Next; AnswerWith true; Next; AnswerWith false; Submit].

Definition example_session : list action * Store :=
  default ([], init_store)
    (ui_run example_world example_clicks (render example_world init_store)).

(** A world whose first candidate file does not parse and whose second one
    has two records. *)
Definition fallback_world : World :=
  {| files := {[ "./biases.json"%string := Malformed;
                 "./data/biases.json"%string :=
                   Document (Some [raw "Anchoring bias" true;
                                   raw "Lunar recall effect" false]);
                 "./biases/data/biases.json"%string :=
                   Document (Some [raw "Confirmation bias" true]) ]};
     entropy := [] |}.

(** A world whose first candidate file holds a JSON list, not an object;
    the second one is never opened. *)
Definition broken_world : World :=
  {| files := {[ "./biases.json"%string := NotObject;
                 "./data/biases.json"%string :=
                   Document (Some [raw "Anchoring bias" true]) ]};
     entropy := [] |}.

(** ** Basic facts about the monad *)

Lemma bind_Return {A B} (m : M A) (k : A → M B) st a st' :
  m st = (Return a, st') → bind m k st = k a st'.
Proof. intros H. unfold bind. by rewrite H. Qed.

Lemma bind_Raise {A B} (m : M A) (k : A → M B) st e st' :
  m st = (Raise e, st') → bind m k st = (Raise e, st').
Proof. intros H. unfold bind. by rewrite H. Qed.

(** One step of a computation whose first action returns. *)
Ltac mstep_by tac := erewrite bind_Return by tac; cbv beta iota.
Ltac mstep := mstep_by ltac:(reflexivity).

(** ** Python indexing *)

Lemma py_index_nonneg {A} (xs : list A) (i : Z) :
  0 ≤ i → py_index xs i = xs !! Z.to_nat i.
Proof. intros H. unfold py_index. by rewrite bool_decide_eq_true_2. Qed.


(** ** The shuffle rearranges, it neither drops nor adds *)

Lemma swap_length {A} (x : list A) i j : length (swap x i j) = length x.
Proof.
  unfold swap. destruct (x !! i), (x !! j); try done.
  by rewrite !length_insert.
Qed.

Lemma shuffle_from_length {A} i rnd (x : list A) :
  length (shuffle_from i rnd x) = length x.
Proof.
  revert rnd x. induction i as [|i IH]; intros rnd x; simpl; [done|].
  by rewrite IH, swap_length.
Qed.

Lemma shuffle_length {A} rnd (x : list A) : length (shuffle rnd x) = length x.
Proof. apply shuffle_from_length. Qed.

Lemma swap_Permutation {A} (x : list A) i j : swap x i j ≡ₚ x.
Proof.
  unfold swap.
  destruct (x !! i) as [a|] eqn:Hi; [|done].
  destruct (x !! j) as [b|] eqn:Hj; [|done].
  by apply Permutation_insert_swap.
Qed.

Lemma shuffle_Permutation {A} rnd (x : list A) : shuffle rnd x ≡ₚ x.
Proof.
  unfold shuffle. generalize (length x - 1)%nat as i. intros i.
  revert rnd x. induction i as [|i IH]; intros rnd x; simpl; [done|].
  by rewrite IH, swap_Permutation.
Qed.

(** ** The loader *)



Lemma loader_result_data w :
  loader_data w ≠ [] → loader_result w = Return (loader_data w).
Proof. unfold loader_data. by destruct (loader_result w). Qed.


Lemma load_and_shuffle_data_nil w limit st :
  loader_data w = [] →
  load_and_shuffle_data w limit st = (Raise (loader_exn w), st).
Proof.
  unfold load_and_shuffle_data, loader_data, loader_exn, loader_result.
  destruct (load_loop w filenames []) as [[|d data]|e]; by intros.
Qed.

Lemma load_and_shuffle_data_cons w limit st :
  loader_data w ≠ [] →
  load_and_shuffle_data w limit st
  = (Return (take limit (shuffle (entropy w) (loader_data w))), st).
Proof.
  unfold load_and_shuffle_data, loader_data, loader_result.
  by destruct (load_loop w filenames []) as [[|d data]|e].
Qed.

(** ** Allocation of the answers *)

Lemma new_answers_spec {A} (bs : list A) st :
  new_answers bs st
  = (Return (seq (next_loc st) (length bs)), allocated (length bs) st).
Proof.
  revert st. induction bs as [|b bs IH]; intros st; simpl.
  - unfold ret, allocated. simpl. rewrite Nat.add_0_r. by destruct st.
  - erewrite bind_Return by reflexivity.
    erewrite bind_Return by apply IH.
    unfold ret, allocated. simpl. f_equal. f_equal.
    + rewrite reverse_cons, foldr_app. done.
    + lia.
Qed.

Lemma allocated_lookup n st ans :
  heap (allocated n st) !!! ans
  = if decide (next_loc st ≤ ans < next_loc st + n)%nat
    then Answer_new else heap st !!! ans.
Proof.
  unfold allocated. simpl. generalize (next_loc st) as m. intros m.
  revert m. induction n as [|n IH] using nat_ind; intros m.
  - simpl. case_decide; [lia|done].
  - rewrite seq_S, reverse_snoc. simpl.
    destruct (decide (ans = (m + n)%nat)) as [->|Hne].
    + rewrite lookup_total_insert_eq. case_decide; [done|lia].
    + rewrite lookup_total_insert_ne by done. rewrite IH.
      repeat case_decide; try done; lia.
Qed.

(** ** What [create_quiz] and [get_state] compute *)

Lemma created_biases_length w :
  length (created_biases w) = (default_limit `min` length (loader_data w))%nat.
Proof.
  unfold created_biases.
  rewrite length_fmap, length_take, shuffle_length. lia.
Qed.

Lemma created_biases_nonempty w :
  loader_data w ≠ [] → (0 < length (created_biases w))%nat.
Proof.
  intros H. rewrite created_biases_length. unfold default_limit.
  destruct (loader_data w); [done|]. simpl. lia.
Qed.

Lemma create_quiz_nil w st :
  loader_data w = [] → create_quiz w st = (Raise (loader_exn w), st).
Proof.
  intros H. unfold create_quiz.
  by erewrite bind_Raise by by apply load_and_shuffle_data_nil.
Qed.

Lemma create_quiz_cons w st :
  loader_data w ≠ [] →
  create_quiz w st
  = (Return (created_quiz w st), allocated (length (created_biases w)) st).
Proof.
  intros H. unfold create_quiz.
  erewrite bind_Return by by apply load_and_shuffle_data_cons.
  erewrite bind_Return by apply new_answers_spec.
  done.
Qed.

(** [get_state] returns when the session has a quiz or the loader finds
    data. *)
Lemma get_state_spec w st :
  is_Some (quiz (session st)) ∨ loader_data w ≠ [] →
  get_state w st = (Return tt, after_get_state w st).
Proof.
  intros Hpre. unfold get_state, after_get_state.
  erewrite bind_Return by reflexivity.
  destruct st as [h n [oq r s]]; simpl in *.
  destruct oq as [q|].
  - do 2 (erewrite bind_Return by reflexivity).
    by destruct r as [r|], s as [s|].
  - destruct Hpre as [[? ?]|Hdata]; [done|].
    erewrite bind_Return; cycle 1.
    { unfold try_except_pass.
      erewrite bind_Return by by apply create_quiz_cons.
      reflexivity. }
    erewrite bind_Return by reflexivity.
    destruct (loader_data w) as [|d data]; [done|].
    by destruct r as [r|], s as [s|].
Qed.

(** Otherwise it raises and leaves the store as it was: the exception of
    the candidate that could not be loaded, or the pending
    [StopException]. *)
Lemma get_state_raise w st :
  quiz (session st) = None → loader_data w = [] →
  get_state w st = (Raise (loader_exn w), st).
Proof.
  intros Hq Hdata. unfold get_state.
  erewrite bind_Return by reflexivity. rewrite Hq.
  unfold try_except_pass, bind at 1.
  erewrite bind_Raise by by apply create_quiz_nil.
  destruct (decide (loader_exn w = StopException)) as [->|Hne]; [|done].
  done.
Qed.

Lemma get_state_store w st : (get_state w st).2 = after_get_state w st.
Proof.
  destruct (quiz (session st)) as [q|] eqn:Hq.
  { rewrite get_state_spec by (left; by rewrite Hq). done. }
  destruct (loader_data w) as [|d data] eqn:Hdata.
  - rewrite get_state_raise by done. unfold after_get_state.
    by rewrite Hq, Hdata.
  - rewrite get_state_spec by (right; by rewrite Hdata). done.
Qed.

Lemma get_state_running w h n q r s :
  get_state w (running h n q r s) = (Return tt, running h n q r s).
Proof. rewrite get_state_spec; [done|]. left. simpl. eauto. Qed.

(** With a quiz in it, the store [get_state] leaves has both flags
    assigned, and [get_state] has returned. *)
Lemma after_get_state_some w st q :
  quiz (session (after_get_state w st)) = Some q →
  (is_Some (quiz (session st)) ∨ loader_data w ≠ [])
  ∧ ∃ h n r s, after_get_state w st = running h n q r s.
Proof.
  unfold after_get_state.
  destruct (quiz (session st)) as [q0|] eqn:Hq;
    [|destruct (loader_data w) as [|d data]]; simpl.
  - intros Heq. assert (q0 = q) as -> by congruence.
    split; [eauto|]. unfold running, with_session, defaults.
    rewrite Hq. eauto.
  - intros H. congruence.
  - intros [= <-]. split; [by right|]. unfold running. eauto.
Qed.

(** Without one, [get_state] has raised. *)
Lemma after_get_state_none w st :
  quiz (session (after_get_state w st)) = None →
  quiz (session st) = None ∧ loader_data w = []
  ∧ after_get_state w st = st.
Proof.
  unfold after_get_state.
  destruct (quiz (session st)) as [q|] eqn:Hq; simpl;
    [intros H; congruence|].
  destruct (loader_data w); [by intros _|done].
Qed.

(** ** The callbacks on a running session *)

Lemma set_answer_running w v h n q r :
  set_answer w v (running h n q r false)
  = if bool_decide (Z.of_nat (length (biases q)) ≤ current_index q)
    then (Return tt, running h n q r false)
    else match py_index (biases q) (current_index q),
               py_index (answers q) (current_index q) with
         | Some bias, Some ans =>
             (Return tt, running (answered h ans v bias) n q true false)
         | _, _ => (Raise IndexError, running h n q r false)
         end.
Proof.
  unfold set_answer.
  mstep_by ltac:(apply get_state_running). do 2 mstep.
  case_bool_decide; [done|].
  unfold getitem.
  destruct (py_index (biases q) (current_index q)) as [bias|];
    [|by destruct (py_index (answers q) (current_index q))].
  mstep.
  destruct (py_index (answers q) (current_index q)) as [ans|]; [|done].
  mstep.
  unfold bind, setattr_value, setattr_is_correct, read_answer, write_answer,
    set_revealed, get_session, put_session, bind, running, answered; simpl.
  by rewrite lookup_total_insert_eq, insert_insert_eq.
Qed.

Lemma go_prev_running w h n q r :
  go_prev w (running h n q r false)
  = look h n (if bool_decide (0 < current_index q)
              then set_current_index q (current_index q - 1) else q) r.
Proof.
  unfold go_prev, look.
  mstep_by ltac:(apply get_state_running). do 2 mstep.
  case_bool_decide.
  - do 2 mstep. unfold getitem. simpl.
    by destruct (py_index (answers q) (current_index q - 1)).
  - do 2 mstep. unfold getitem.
    by destruct (py_index (answers q) (current_index q)).
Qed.

Lemma go_next_running w h n q r :
  go_next w (running h n q r false)
  = look h n (if bool_decide (current_index q
                              < Z.of_nat (length (biases q)) - 1)
              then set_current_index q (current_index q + 1) else q) r.
Proof.
  unfold go_next, look.
  mstep_by ltac:(apply get_state_running). do 2 mstep.
  case_bool_decide.
  - do 2 mstep. unfold getitem. simpl.
    by destruct (py_index (answers q) (current_index q + 1)).
  - do 2 mstep. unfold getitem.
    by destruct (py_index (answers q) (current_index q)).
Qed.

(** A submitted session ignores the three callbacks. *)
Lemma submitted_ignores w a h n q r :
  a ≠ Restart →
  handler w a (running h n q r true) = (Return tt, running h n q r true).
Proof.
  intros Ha. by destruct a.
Qed.

Lemma set_answer_submitted w v h n q r :
  set_answer w v (running h n q r true) = (Return tt, running h n q r true).
Proof. by apply (submitted_ignores w (AnswerWith v)). Qed.

Lemma go_prev_submitted w h n q r :
  go_prev w (running h n q r true) = (Return tt, running h n q r true).
Proof. by apply (submitted_ignores w Prev). Qed.

Lemma go_next_submitted w h n q r :
  go_next w (running h n q r true) = (Return tt, running h n q r true).
Proof. by apply (submitted_ignores w Next). Qed.

(** ** The invariant of the session *)

(** Reduce record projections, leaving the loader and the store folded. *)
Ltac psimpl :=
  cbn [heap next_loc session quiz revealed submitted biases answers
       current_index with_session created_quiz running defaults].

Lemma consistent_new b : consistent b Answer_new.
Proof. done. Qed.

Lemma consistent_answered h ans v bias :
  consistent bias (answered h ans v bias !!! ans).
Proof. unfold answered. by rewrite lookup_total_insert_eq. Qed.

Lemma Inv_init : Inv init_store.
Proof. split; simpl; done. Qed.

Lemma Inv_created w st s :
  loader_data w ≠ [] →
  Inv (with_session (allocated (length (created_biases w)) st)
         {| quiz := Some (created_quiz w st);
            revealed := Some false; submitted := s |}).
Proof.
  intros Hdata. pose proof (created_biases_nonempty w Hdata) as Hlen.
  split; psimpl.
  - intros q [= <-]. split; psimpl.
    + by rewrite length_seq.
    + apply NoDup_seq.
    + lia.
  - intros q i b ans [= <-]; psimpl. intros _ Hans.
    apply lookup_seq in Hans as [-> Hi].
    rewrite allocated_lookup, decide_True by lia. apply consistent_new.
  - intros q [= <-]; psimpl. exists (next_loc st). split.
    + rewrite lookup_seq_lt by done. f_equal. lia.
    + by rewrite allocated_lookup, decide_True by lia.
  - done.
Qed.

(** The three flags of [defaults] do not disturb a quiz that is there. *)
Lemma Inv_defaults st : Inv st → Inv (with_session st (defaults (session st))).
Proof.
  intros [Hwf Hcons Hrev Hnone]. split; simpl.
  - done.
  - done.
  - intros q Hq. destruct (Hrev q Hq) as (ans & Hans & Hr).
    exists ans. by rewrite Hr.
  - intros Hq. specialize (Hnone Hq).
    destruct (revealed (session st)) as [[]|]; simpl; congruence.
Qed.

Lemma Inv_after_get_state w st : Inv st → Inv (after_get_state w st).
Proof.
  intros HI. unfold after_get_state.
  destruct (quiz (session st)) as [q|] eqn:Hq.
  { by apply Inv_defaults. }
  destruct (loader_data w) as [|d data] eqn:Hdata; [done|].
  unfold defaults; simpl.
  assert (default false (revealed (session st)) = false) as ->.
  { pose proof (Inv_no_quiz st HI Hq).
    destruct (revealed (session st)) as [[]|]; simpl; congruence. }
  apply Inv_created. by rewrite Hdata.
Qed.

Lemma wf_py_index q :
  wf_quiz q →
  ∃ bias ans,
    biases q !! Z.to_nat (current_index q) = Some bias
    ∧ answers q !! Z.to_nat (current_index q) = Some ans
    ∧ py_index (biases q) (current_index q) = Some bias
    ∧ py_index (answers q) (current_index q) = Some ans.
Proof.
  intros [Hlen _ Hidx].
  destruct (lookup_lt_is_Some_2 (biases q) (Z.to_nat (current_index q)))
    as [bias Hb]; [lia|].
  destruct (lookup_lt_is_Some_2 (answers q) (Z.to_nat (current_index q)))
    as [ans Ha]; [lia|].
  exists bias, ans. by rewrite !py_index_nonneg by lia.
Qed.

Lemma Inv_set_answer w v h n q r :
  Inv (running h n q r false) →
  Inv (snd (set_answer w v (running h n q r false))).
Proof.
  intros HI. rewrite set_answer_running.
  case_bool_decide; [done|].
  pose proof (Inv_wf _ HI q eq_refl) as Hwf.
  destruct (wf_py_index q Hwf) as (bias & ans & Hb & Ha & -> & ->). simpl.
  split; simpl.
  - intros q' [= <-]. done.
  - intros q' i b ans' [= <-] Hb' Ha'.
    destruct (decide (ans' = ans)) as [->|Hne].
    + pose proof (NoDup_lookup _ _ _ _ (wf_distinct q Hwf) Ha' Ha) as ->.
      assert (b = bias) as -> by congruence.
      apply consistent_answered.
    + unfold answered. rewrite lookup_total_insert_ne by done.
      by apply (Inv_consistent _ HI q i).
  - intros q' [= <-]. exists ans. split; [done|].
    unfold answered. by rewrite lookup_total_insert_eq.
  - done.
Qed.

Lemma Inv_look h n q q' r :
  Inv (running h n q r false) →
  biases q' = biases q → answers q' = answers q →
  0 ≤ current_index q' < Z.of_nat (length (biases q)) →
  Inv (snd (look h n q' r)).
Proof.
  intros HI Hb Ha Hidx.
  pose proof (Inv_wf _ HI q eq_refl) as Hwf.
  assert (wf_quiz q') as Hwf'.
  { destruct Hwf. split; rewrite ?Hb, ?Ha; done. }
  unfold look.
  destruct (wf_py_index q' Hwf') as (bias & ans & _ & Hans & _ & ->). simpl.
  split; simpl.
  - by intros ? [= <-].
  - intros ? i b ans' [= <-]. rewrite Hb, Ha.
    by apply (Inv_consistent _ HI q i).
  - intros ? [= <-]. by exists ans.
  - done.
Qed.

Lemma Inv_go_prev w h n q r :
  Inv (running h n q r false) →
  Inv (snd (go_prev w (running h n q r false))).
Proof.
  intros HI. rewrite go_prev_running.
  pose proof (wf_index q (Inv_wf _ HI q eq_refl)).
  apply (Inv_look h n q); [done|..]; case_bool_decide; simpl; try done; lia.
Qed.

Lemma Inv_go_next w h n q r :
  Inv (running h n q r false) →
  Inv (snd (go_next w (running h n q r false))).
Proof.
  intros HI. rewrite go_next_running.
  pose proof (wf_index q (Inv_wf _ HI q eq_refl)).
  apply (Inv_look h n q); [done|..]; case_bool_decide; simpl; try done; lia.
Qed.

Lemma Inv_submit st : Inv st → Inv (snd (submit st)).
Proof. intros [Hwf Hcons Hrev Hnone]. split; simpl; done. Qed.

Lemma restart_quiz_nil w st :
  loader_data w = [] → restart_quiz w st = (Raise (loader_exn w), st).
Proof.
  intros H. unfold restart_quiz. by erewrite bind_Raise by by apply create_quiz_nil.
Qed.

Lemma restart_quiz_cons w st :
  loader_data w ≠ [] →
  restart_quiz w st
  = (Return tt,
     with_session (allocated (length (created_biases w)) st)
       {| quiz := Some (created_quiz w st);
          revealed := Some false; submitted := Some false |}).
Proof.
  intros H. unfold restart_quiz.
  mstep_by ltac:(by apply create_quiz_cons). done.
Qed.

Lemma Inv_restart_quiz w st : Inv st → Inv (snd (restart_quiz w st)).
Proof.
  intros HI. destruct (loader_data w) as [|d data] eqn:Hdata.
  - by rewrite restart_quiz_nil.
  - rewrite restart_quiz_cons by by rewrite Hdata.
    apply Inv_created. by rewrite Hdata.
Qed.

(** A callback continues from the store that [get_state] leaves. *)
Lemma callback_quiz w a st h n q r s :
  is_callback a →
  after_get_state w st = running h n q r s →
  handler w a st = handler w a (running h n q r s).
Proof.
  intros Ha Hst.
  assert (get_state w st = (Return tt, running h n q r s)) as Hget.
  { rewrite <- Hst. apply get_state_spec.
    apply (after_get_state_some w st q). by rewrite Hst. }
  destruct a; try done; simpl.
  - unfold set_answer.
    mstep_by ltac:(apply Hget).
    symmetry. by mstep_by ltac:(apply get_state_running).
  - unfold go_prev.
    mstep_by ltac:(apply Hget).
    symmetry. by mstep_by ltac:(apply get_state_running).
  - unfold go_next.
    mstep_by ltac:(apply Hget).
    symmetry. by mstep_by ltac:(apply get_state_running).
Qed.

(** Without a quiz, and without data to build one, a callback ends in its
    first statement: [get_state] raises and the store stays as it was. *)
Lemma callback_raise w a st :
  is_callback a →
  quiz (session st) = None → loader_data w = [] →
  handler w a st = (Raise (loader_exn w), st).
Proof.
  intros Ha Hq Hdata.
  pose proof (get_state_raise w st Hq Hdata) as Hget.
  destruct a; try done; simpl.
  - unfold set_answer. by erewrite bind_Raise by exact Hget.
  - unfold go_prev. by erewrite bind_Raise by exact Hget.
  - unfold go_next. by erewrite bind_Raise by exact Hget.
Qed.

Lemma callback_no_quiz w a st :
  is_callback a →
  quiz (session (after_get_state w st)) = None →
  snd (handler w a st) = after_get_state w st.
Proof.
  intros Ha Hq.
  destruct (after_get_state_none w st Hq) as (Hq0 & Hdata & ->).
  by rewrite callback_raise.
Qed.

Lemma Inv_callback w a st :
  is_callback a → Inv st → Inv (snd (handler w a st)).
Proof.
  intros Ha HI. apply (Inv_after_get_state w) in HI.
  destruct (quiz (session (after_get_state w st))) as [q|] eqn:Hq.
  - destruct (after_get_state_some w st q Hq) as (_ & h & n & r & s & Hst).
    rewrite (callback_quiz w a st h n q r s) by done.
    rewrite Hst in HI.
    destruct s.
    + rewrite submitted_ignores; [done|]. by destruct a.
    + destruct a; try done; simpl.
      * by apply Inv_set_answer.
      * by apply Inv_go_prev.
      * by apply Inv_go_next.
  - by rewrite callback_no_quiz.
Qed.

Lemma Inv_handler w a st : Inv st → Inv (snd (handler w a st)).
Proof.
  intros HI. destruct a.
  - simpl. rewrite get_state_store. by apply Inv_after_get_state.
  - by apply Inv_callback.
  - by apply Inv_callback.
  - by apply Inv_callback.
  - by apply Inv_submit.
  - by apply Inv_restart_quiz.
Qed.

Lemma reachable_Inv st : reachable st → Inv st.
Proof.
  induction 1 as [|st w a _ IH]; [apply Inv_init|by apply Inv_handler].
Qed.

Lemma run_reachable tr st : reachable st → reachable (run tr st).
Proof.
  revert st. induction tr as [|[w a] tr IH]; intros st H; simpl; [done|].
  apply IH. by constructor.
Qed.

(** ** Answering *)

Lemma set_answer_in_range w v h n q r bias ans :
  0 ≤ current_index q < Z.of_nat (length (biases q)) →
  biases q !! Z.to_nat (current_index q) = Some bias →
  answers q !! Z.to_nat (current_index q) = Some ans →
  set_answer w v (running h n q r false)
  = (Return tt, running (answered h ans v bias) n q true false).
Proof.
  intros Hidx Hb Ha. rewrite set_answer_running.
  rewrite bool_decide_eq_false_2 by lia.
  by rewrite !py_index_nonneg, Hb, Ha by lia.
Qed.

Lemma the_answer_answered h n q r s i ans v bias :
  answers q !! i = Some ans →
  the_answer (running (answered h ans v bias) n q r s) i
  = Some {| value := Some v;
            is_correct := Some (Bool.eqb v (is_authentic bias)) |}.
Proof.
  intros Ha. unfold the_answer; simpl. rewrite Ha; simpl.
  unfold answered. by rewrite lookup_total_insert_eq.
Qed.

(** C1. In every session reachable from a new one by page loads and the
    callbacks (answer, previous, next, submit, restart), whatever the files
    and the generator are at each event, and for every index [i]: the
    [is_correct] of [answers[i]] is set if and only if its [value] is set,
    and when set it is [value == claims[i].is_authentic]. *)
Theorem is_correct_follows_value st i bias a :
  reachable st →
  the_claim st i = Some bias →
  the_answer st i = Some a →
  (is_Some (is_correct a) ↔ is_Some (value a))
  ∧ (∀ c, is_correct a = Some c →
       ∃ v, value a = Some v ∧ c = Bool.eqb v (is_authentic bias)).
Proof.
  intros Hreach Hclaim Hans. apply reachable_Inv in Hreach.
  unfold the_claim, the_answer in *.
  destruct (quiz (session st)) as [q|] eqn:Hq; [|done].
  destruct (answers q !! i) as [ans|] eqn:Ha; [|done].
  simpl in Hans. injection Hans as <-.
  pose proof (Inv_consistent st Hreach q i bias ans Hq Hclaim Ha) as Hc.
  unfold consistent in Hc. rewrite Hc.
  destruct (value (heap st !!! ans)) as [v|]; simpl.
  - split; [by split; eauto|]. intros c [= <-]. by exists v.
  - split; [|done]. split; intros [? ?]; done.
Qed.

Lemma is_correct_follows_value_witness :
  let st := run [(example_world, Load); (example_world, AnswerWith false)]
                init_store in
  let bias := from_dict (raw "Anchoring bias" true) in
  let a := {| value := Some false; is_correct := Some false |} in
  reachable st
  ∧ the_claim st 0 = Some bias
  ∧ the_answer st 0 = Some a
  ∧ (is_Some (is_correct a) ↔ is_Some (value a))
  ∧ (∀ c, is_correct a = Some c →
       ∃ v, value a = Some v ∧ c = Bool.eqb v (is_authentic bias)).
Proof.
  intros st bias a.
  assert (reachable st) as Hreach
    by (apply run_reachable, reachable_init).
  assert (the_claim st 0 = Some bias) as Hclaim by (vm_compute; reflexivity).
  assert (the_answer st 0 = Some a) as Hans by (vm_compute; reflexivity).
  split; [exact Hreach|]. split; [exact Hclaim|]. split; [exact Hans|].
  exact (is_correct_follows_value st 0%nat bias a Hreach Hclaim Hans).
Defined.

(** C2. On an unsubmitted quiz whose cursor is in bounds, [set_answer(v)]
    returns normally, leaves [answers[current_index]] with [value = v] and
    [is_correct = (v == claims[current_index].is_authentic)], and sets
    [revealed]; a second [set_answer(v')] on the same question overwrites
    both fields with those of [v'] and leaves [revealed] set. *)
Theorem set_answer_last_write_wins w w' h n q r v v' :
  0 ≤ current_index q < Z.of_nat (length (biases q)) →
  length (answers q) = length (biases q) →
  let i := Z.to_nat (current_index q) in
  let st := running h n q r false in
  let st1 := (set_answer w v st).2 in
  let st2 := (set_answer w' v' st1).2 in
  ∃ bias,
    the_claim st i = Some bias
    ∧ (set_answer w v st).1 = Return tt
    ∧ the_answer st1 i
      = Some {| value := Some v;
                is_correct := Some (Bool.eqb v (is_authentic bias)) |}
    ∧ revealed (session st1) = Some true
    ∧ quiz (session st1) = Some q
    ∧ (set_answer w' v' st1).1 = Return tt
    ∧ the_answer st2 i
      = Some {| value := Some v';
                is_correct := Some (Bool.eqb v' (is_authentic bias)) |}
    ∧ revealed (session st2) = Some true.
Proof.
  intros Hidx Hlen i st st1 st2.
  destruct (lookup_lt_is_Some_2 (biases q) i) as [bias Hb]; [lia|].
  destruct (lookup_lt_is_Some_2 (answers q) i) as [ans Ha]; [lia|].
  exists bias.
  assert (set_answer w v st
          = (Return tt, running (answered h ans v bias) n q true false))
    as H1 by by apply set_answer_in_range.
  assert (st1 = running (answered h ans v bias) n q true false) as Hst1
    by (unfold st1; by rewrite H1).
  assert (set_answer w' v' st1
          = (Return tt,
             running (answered (answered h ans v bias) ans v' bias)
               n q true false))
    as H2 by (rewrite Hst1; by apply set_answer_in_range).
  assert (st2 = running (answered (answered h ans v bias) ans v' bias)
                  n q true false) as Hst2
    by (unfold st2; by rewrite H2).
  rewrite H1, H2, Hst2, Hst1.
  repeat split; try done; by apply the_answer_answered.
Qed.

Lemma set_answer_last_write_wins_witness :
  let q := {| biases := [from_dict (raw "Anchoring bias" true);
                         from_dict (raw "Lunar recall effect" false)];
              answers := [0; 1]%nat; current_index := 1 |} in
  let st := running ∅ 2 q false false in
  let st1 := (set_answer example_world true st).2 in
  let st2 := (set_answer example_world false st1).2 in
  (0 ≤ current_index q < Z.of_nat (length (biases q))
   ∧ length (answers q) = length (biases q))
  ∧ ∃ bias,
    the_claim st 1 = Some bias
    ∧ (set_answer example_world true st).1 = Return tt
    ∧ the_answer st1 1
      = Some {| value := Some true;
                is_correct := Some (Bool.eqb true (is_authentic bias)) |}
    ∧ revealed (session st1) = Some true
    ∧ quiz (session st1) = Some q
    ∧ (set_answer example_world false st1).1 = Return tt
    ∧ the_answer st2 1
      = Some {| value := Some false;
                is_correct := Some (Bool.eqb false (is_authentic bias)) |}
    ∧ revealed (session st2) = Some true.
Proof.
  intros q.
  assert (0 ≤ current_index q < Z.of_nat (length (biases q))) as Hidx
    by (simpl; lia).
  assert (length (answers q) = length (biases q)) as Hlen by reflexivity.
  split; [by split|].
  exact (set_answer_last_write_wins example_world example_world ∅ 2%nat q
           false true false Hidx Hlen).
Defined.

(** ** Navigation *)

Lemma set_current_index_same q : set_current_index q (current_index q) = q.
Proof. by destruct q. Qed.

Lemma set_current_index_twice q i j :
  set_current_index (set_current_index q i) j = set_current_index q j.
Proof. done. Qed.

Lemma the_answer_running h n q r s (i : nat) :
  the_answer (running h n q r s) i = (λ ans, h !!! ans) <$> answers q !! i.
Proof. done. Qed.

(** The answer under a cursor that is in bounds. *)
Lemma the_answer_in_range h n q r s (i : Z) :
  length (answers q) = length (biases q) →
  0 ≤ i < Z.of_nat (length (biases q)) →
  ∃ ans, answers q !! Z.to_nat i = Some ans
         ∧ the_answer (running h n q r s) (Z.to_nat i) = Some (h !!! ans).
Proof.
  intros Hlen Hi.
  destruct (lookup_lt_is_Some_2 (answers q) (Z.to_nat i)) as [ans Ha]; [lia|].
  exists ans. split; [done|]. by rewrite the_answer_running, Ha.
Qed.

Lemma look_at h n q r (i : Z) ans :
  0 ≤ i → answers q !! Z.to_nat i = Some ans →
  look h n (set_current_index q i) r
  = (Return tt,
     running h n (set_current_index q i) (is_not_None (value (h !!! ans)))
       false).
Proof.
  intros Hi Ha. unfold look. simpl. by rewrite py_index_nonneg, Ha.
Qed.

Lemma go_prev_in_range w h n q r :
  length (answers q) = length (biases q) →
  0 ≤ current_index q < Z.of_nat (length (biases q)) →
  ∃ a, the_answer (running h n q r false)
         (Z.to_nat (Z.max 0 (current_index q - 1))) = Some a
       ∧ go_prev w (running h n q r false)
         = (Return tt,
            running h n (set_current_index q (Z.max 0 (current_index q - 1)))
              (is_not_None (value a)) false).
Proof.
  intros Hlen Hidx.
  destruct (the_answer_in_range h n q r false
              (Z.max 0 (current_index q - 1)) Hlen) as (ans & Ha & Hthe);
    [lia|].
  exists (h !!! ans). split; [done|].
  rewrite go_prev_running. case_bool_decide.
  - rewrite Z.max_r in Ha |- * by lia. apply look_at; [lia|done].
  - assert (Z.max 0 (current_index q - 1) = current_index q) as Hmax by lia.
    rewrite Hmax in Ha |- *.
    rewrite <- (set_current_index_same q) at 1. apply look_at; [lia|done].
Qed.

Lemma go_next_in_range w h n q r :
  length (answers q) = length (biases q) →
  0 ≤ current_index q < Z.of_nat (length (biases q)) →
  let x := Z.min (Z.of_nat (length (biases q)) - 1) (current_index q + 1) in
  ∃ a, the_answer (running h n q r false) (Z.to_nat x) = Some a
       ∧ go_next w (running h n q r false)
         = (Return tt,
            running h n (set_current_index q x) (is_not_None (value a)) false).
Proof.
  intros Hlen Hidx x.
  destruct (the_answer_in_range h n q r false x Hlen) as (ans & Ha & Hthe);
    [unfold x; lia|].
  exists (h !!! ans). split; [done|].
  rewrite go_next_running. case_bool_decide.
  - assert (x = current_index q + 1) as Hx by (unfold x; lia).
    rewrite Hx in Ha |- *. apply look_at; [lia|done].
  - assert (x = current_index q) as Hx by (unfold x; lia).
    rewrite Hx in Ha |- *.
    rewrite <- (set_current_index_same q) at 1. apply look_at; [lia|done].
Qed.

(** C3. On an unsubmitted quiz, [go_prev] moves the cursor to
    [max(0, current_index - 1)] and [go_next] to
    [min(N - 1, current_index + 1)]; either then sets [revealed] to whether
    the answer under the new cursor has a value, whatever [revealed] was,
    and changes nothing else. *)
Theorem navigation_moves_then_recomputes w h n q r :
  length (answers q) = length (biases q) →
  0 ≤ current_index q < Z.of_nat (length (biases q)) →
  let st := running h n q r false in
  let p := Z.max 0 (current_index q - 1) in
  let x := Z.min (Z.of_nat (length (biases q)) - 1) (current_index q + 1) in
  (∃ a, the_answer st (Z.to_nat p) = Some a
        ∧ go_prev w st
          = (Return tt,
             running h n (set_current_index q p) (is_not_None (value a))
               false))
  ∧ (∃ a, the_answer st (Z.to_nat x) = Some a
          ∧ go_next w st
            = (Return tt,
               running h n (set_current_index q x) (is_not_None (value a))
                 false)).
Proof.
  intros Hlen Hidx st p x. split.
  - by apply go_prev_in_range.
  - by apply go_next_in_range.
Qed.

Lemma navigation_moves_then_recomputes_witness :
  let q := example_quiz 1 in
  let st := running example_heap 3 q true false in
  (length (answers q) = length (biases q)
   ∧ 0 ≤ current_index q < Z.of_nat (length (biases q)))
  ∧ (∃ a, the_answer st 0 = Some a
          ∧ go_prev example_world st
            = (Return tt,
               running example_heap 3 (example_quiz 0)
                 (is_not_None (value a)) false))
  ∧ (∃ a, the_answer st 2 = Some a
          ∧ go_next example_world st
            = (Return tt,
               running example_heap 3 (example_quiz 2)
                 (is_not_None (value a)) false)).
Proof.
  intros q st.
  assert (length (answers q) = length (biases q)) as Hlen by reflexivity.
  assert (0 ≤ current_index q < Z.of_nat (length (biases q))) as Hidx
    by (simpl; lia).
  split; [by split|].
  exact (navigation_moves_then_recomputes example_world example_heap 3%nat
           q true Hlen Hidx).
Defined.

(** C4. On an unsubmitted quiz whose cursor [i] is not on the last
    question, [go_next] followed by [go_prev] brings the cursor back to [i],
    and [revealed] is then whether [answers[i]] has a value; nothing else
    has changed. *)
Theorem go_next_then_go_prev w w' h n q r :
  length (answers q) = length (biases q) →
  0 ≤ current_index q < Z.of_nat (length (biases q)) - 1 →
  let st := running h n q r false in
  ∃ a, the_answer st (Z.to_nat (current_index q)) = Some a
       ∧ (go_next w ;; go_prev w') st
         = (Return tt, running h n q (is_not_None (value a)) false).
Proof.
  intros Hlen Hidx st.
  destruct (the_answer_in_range h n q r false (current_index q) Hlen)
    as (ans & Ha & Hthe); [lia|].
  exists (h !!! ans). split; [done|].
  destruct (go_next_in_range w h n q r Hlen) as (a1 & _ & Hnext); [lia|].
  rewrite Z.min_r in Hnext by lia.
  erewrite bind_Return by exact Hnext.
  set (q1 := set_current_index q (current_index q + 1)).
  destruct (go_prev_in_range w' h n q1 (is_not_None (value a1)))
    as (a2 & Ha2 & Hprev); [done|simpl; lia|].
  rewrite Hprev. simpl in Ha2 |- *.
  replace (Z.max 0 (current_index q + 1 - 1)) with (current_index q)
    in Ha2 |- * by lia.
  unfold q1 in Ha2 |- *.
  rewrite set_current_index_twice, set_current_index_same.
  rewrite the_answer_running in Ha2. simpl in Ha2.
  rewrite Ha in Ha2. simpl in Ha2. by injection Ha2 as <-.
Qed.

Lemma go_next_then_go_prev_witness :
  let q := example_quiz 1 in
  let st := running example_heap 3 q false false in
  (length (answers q) = length (biases q)
   ∧ 0 ≤ current_index q < Z.of_nat (length (biases q)) - 1)
  ∧ ∃ a, the_answer st 1 = Some a
         ∧ (go_next example_world ;; go_prev empty_world) st
           = (Return tt, running example_heap 3 q (is_not_None (value a)) false).
Proof.
  intros q st.
  assert (length (answers q) = length (biases q)) as Hlen by reflexivity.
  assert (0 ≤ current_index q < Z.of_nat (length (biases q)) - 1) as Hidx
    by (simpl; lia).
  split; [by split|].
  exact (go_next_then_go_prev example_world empty_world example_heap 3%nat
           q false Hlen Hidx).
Defined.

(** ** The score *)

Lemma sum_of_ones (h : gmap loc Answer) (l : list loc) :
  foldr (λ ans acc, if truthy (is_correct (h !!! ans)) then 1 + acc else acc)
        0 l
  = Z.of_nat (length (filter (λ ans, is_correct (h !!! ans) = Some true) l)).
Proof.
  induction l as [|ans l IH]; simpl; [done|].
  rewrite filter_cons, IH.
  destruct (is_correct (h !!! ans)) as [[]|]; simpl; [lia|done..].
Qed.

Lemma score_eq q st :
  score q st
  = (Return (Z.of_nat (count_correct (heap st) q),
             Z.of_nat (length (biases q))), st).
Proof. unfold score, count_correct. by rewrite sum_of_ones. Qed.

Lemma consistent_correct_iff b a :
  consistent b a →
  is_correct a = Some true ↔ value a = Some (is_authentic b).
Proof.
  unfold consistent. intros ->.
  destruct (value a) as [v|]; simpl; [|done].
  destruct v, (is_authentic b); simpl; split; congruence.
Qed.

Lemma count_filter_zip (h : gmap loc Answer) bs anss :
  length anss = length bs →
  (∀ i b ans, bs !! i = Some b → anss !! i = Some ans →
     consistent b (h !!! ans)) →
  length (filter (λ ans, is_correct (h !!! ans) = Some true) anss)
  = length (filter (λ p : CognitiveBias * loc,
                      value (h !!! p.2) = Some (is_authentic p.1))
                   (zip bs anss)).
Proof.
  revert anss. induction bs as [|b bs IH]; intros [|ans anss] Hlen Hc;
    simpl in *; try done.
  rewrite !filter_cons. simpl.
  pose proof (consistent_correct_iff b (h !!! ans) (Hc 0%nat b ans eq_refl eq_refl))
    as Hiff.
  assert (length (filter (λ ans, is_correct (h !!! ans) = Some true) anss)
          = length (filter (λ p : CognitiveBias * loc,
                              value (h !!! p.2) = Some (is_authentic p.1))
                           (zip bs anss))) as Hrest.
  { apply IH; [lia|]. intros i b' ans' Hb Ha. by apply (Hc (S i)). }
  repeat case_decide; simpl; try tauto; by rewrite Hrest.
Qed.

Lemma count_all_matching (h : gmap loc Answer) bs anss :
  length anss = length bs →
  (∀ i b ans, bs !! i = Some b → anss !! i = Some ans →
     value (h !!! ans) = Some (is_authentic b)) →
  length (filter (λ p : CognitiveBias * loc,
                    value (h !!! p.2) = Some (is_authentic p.1))
                 (zip bs anss))
  = length bs.
Proof.
  revert anss. induction bs as [|b bs IH]; intros [|ans anss] Hlen Hv;
    simpl in *; try done.
  rewrite filter_cons. simpl.
  rewrite decide_True by by apply (Hv 0%nat).
  simpl. f_equal. apply IH; [lia|].
  intros i b' ans' Hb Ha. by apply (Hv (S i)).
Qed.

(** C5. [score] returns [(correct, total)] where [total] is the number of
    claims and [correct] the number of answers whose [is_correct] is true,
    and leaves the store as it was.  In a reachable session [correct] counts
    exactly the questions whose value is set and equals the claim's truth,
    so an answer without a value is not counted, and when every answer
    equals its claim's truth the score is [(N, N)].  In the session of the
    worked example the score is [(1, 3)]. *)
Theorem score_counts_correct_answers q st :
  score q st
  = (Return (Z.of_nat (count_correct (heap st) q),
             Z.of_nat (length (biases q))), st)
  ∧ (reachable st → quiz (session st) = Some q →
     count_correct (heap st) q = count_matching (heap st) q
     ∧ (∀ i a, the_answer st i = Some a → value a = None →
          truthy (is_correct a) = false)
     ∧ ((∀ i bias a, the_claim st i = Some bias → the_answer st i = Some a →
           value a = Some (is_authentic bias)) →
        score q st
        = (Return (Z.of_nat (length (biases q)),
                   Z.of_nat (length (biases q))), st)))
  ∧ (let st3 := run example_trace init_store in
     ∃ q3, quiz (session st3) = Some q3
           ∧ is_authentic <$> biases q3 = [true; false; true]
           ∧ (λ ans, value (heap st3 !!! ans)) <$> answers q3
             = [Some true; Some true; Some false]
           ∧ score q3 st3 = (Return (1, 3), st3)).
Proof.
  split; [apply score_eq|]. split.
  - intros Hreach Hq. apply reachable_Inv in Hreach.
    pose proof (wf_length q (Inv_wf st Hreach q Hq)) as Hlen.
    assert (count_correct (heap st) q = count_matching (heap st) q) as Hcount.
    { apply count_filter_zip; [done|].
      intros i b ans. by apply (Inv_consistent st Hreach q i). }
    split; [done|]. split.
    + intros i a Ha Hv. unfold the_answer in Ha. rewrite Hq in Ha.
      destruct (answers q !! i) as [ans|] eqn:Hans; [|done].
      simpl in Ha. injection Ha as <-.
      destruct (lookup_lt_is_Some_2 (biases q) i) as [b Hb].
      { rewrite <- Hlen. by eapply lookup_lt_Some. }
      pose proof (Inv_consistent st Hreach q i b ans Hq Hb Hans) as Hc.
      unfold consistent in Hc. by rewrite Hc, Hv.
    + intros Hall. rewrite score_eq, Hcount. unfold count_matching.
      rewrite count_all_matching; [done..|].
      intros i b ans Hb Hans. apply (Hall i).
      * unfold the_claim. by rewrite Hq.
      * unfold the_answer. by rewrite Hq, Hans.
  - eexists. split; [vm_compute; reflexivity|].
    split; [vm_compute; reflexivity|].
    split; vm_compute; reflexivity.
Qed.

Lemma score_counts_correct_answers_witness :
  let st := run example_trace init_store in
  let q := example_quiz 2 in
  (reachable st ∧ quiz (session st) = Some q)
  ∧ count_correct (heap st) q = count_matching (heap st) q
  ∧ (∀ i a, the_answer st i = Some a → value a = None →
       truthy (is_correct a) = false).
Proof.
  intros st q.
  assert (reachable st) as Hreach by (apply run_reachable, reachable_init).
  assert (quiz (session st) = Some q) as Hq by (vm_compute; reflexivity).
  split; [by split|].
  destruct (proj1 (proj2 (score_counts_correct_answers q st)) Hreach Hq)
    as (Hcount & Hunset & _).
  by split.
Defined.

(** ** After submission *)

Lemma run_submitted tr h n q r :
  Forall (λ e : World * action, e.2 ≠ Restart) tr →
  run tr (running h n q r true) = running h n q r true.
Proof.
  induction 1 as [|[w a] tr Ha _ IH]; simpl; [done|].
  by rewrite submitted_ignores.
Qed.

(** C6. On a submitted quiz [set_answer], [go_prev] and [go_next] return
    normally and leave the whole store (answers, claims, cursor, both
    flags) as it was; and so does every sequence of events without a
    restart. *)
Theorem submitted_quiz_is_frozen w h n q r v :
  let st := running h n q r true in
  set_answer w v st = (Return tt, st)
  ∧ go_prev w st = (Return tt, st)
  ∧ go_next w st = (Return tt, st)
  ∧ (∀ tr, Forall (λ e : World * action, e.2 ≠ Restart) tr → run tr st = st).
Proof.
  intros st. split; [|split; [|split]].
  - apply set_answer_submitted.
  - apply go_prev_submitted.
  - apply go_next_submitted.
  - intros tr Htr. by apply run_submitted.
Qed.

Lemma submitted_quiz_is_frozen_witness :
  let st := running example_heap 3 (example_quiz 1) true true in
  let tr := [(example_world, AnswerWith false); (empty_world, Prev);
             (example_world, Submit); (example_world, Next);
             (example_world, Load)] in
  Forall (λ e : World * action, e.2 ≠ Restart) tr ∧ run tr st = st.
Proof.
  intros st tr.
  assert (Forall (λ e : World * action, e.2 ≠ Restart) tr) as Htr
    by (repeat constructor; discriminate).
  split; [exact Htr|].
  exact (proj2 (proj2 (proj2
           (submitted_quiz_is_frozen example_world example_heap 3%nat
              (example_quiz 1) true true))) tr Htr).
Defined.

(** ** Creation and restart *)

Lemma allocated_new n st ans :
  ans ∈ seq (next_loc st) n → heap (allocated n st) !!! ans = Answer_new.
Proof.
  intros [Hlo Hhi]%elem_of_seq. by rewrite allocated_lookup, decide_True by lia.
Qed.





Lemma loader_result_files w w' :
  files w = files w' → loader_result w = loader_result w'.
Proof.
  intros Hfs.
  assert (∀ fn, _try_and_load w fn = _try_and_load w' fn) as Htry.
  { intros fn. unfold _try_and_load. by rewrite Hfs. }
  unfold loader_result. generalize (@nil RawBias) as data.
  induction filenames as [|fn fns IH]; intros data; simpl; [done|].
  rewrite Htry. destruct (_try_and_load w' fn) as [[|d l]|e]; [apply IH|done..].
Qed.

Lemma loader_data_files w w' : files w = files w' → loader_data w = loader_data w'.
Proof.
  intros Hfs. unfold loader_data. by rewrite (loader_result_files w w').
Qed.

(** A quiz in the session was either there before the event or built by it
    from data. *)
Lemma handler_quiz_origin w a st :
  is_Some (quiz (session (handler w a st).2)) →
  is_Some (quiz (session st)) ∨ loader_data w ≠ [].
Proof.
  intros Hafter.
  destruct (loader_data w) as [|d data] eqn:Hdata; [left|by right].
  destruct (quiz (session st)) as [q|] eqn:Hq; [done|].
  exfalso. revert Hafter.
  assert (quiz (session (after_get_state w st)) = None) as Hnone.
  { unfold after_get_state. by rewrite Hq, Hdata. }
  destruct a.
  - simpl. rewrite get_state_store. rewrite Hnone. by intros [? ?].
  - rewrite callback_no_quiz by done. rewrite Hnone. by intros [? ?].
  - rewrite callback_no_quiz by done. rewrite Hnone. by intros [? ?].
  - rewrite callback_no_quiz by done. rewrite Hnone. by intros [? ?].
  - simpl. rewrite Hq. by intros [? ?].
  - simpl. rewrite restart_quiz_nil by done. simpl. rewrite Hq.
    by intros [? ?].
Qed.

(** While the files stay as they are, a session that has a quiz can build
    another one. *)
Lemma reachable_with_data fs st w :
  reachable_with fs st → is_Some (quiz (session st)) → files w = fs →
  loader_data w ≠ [].
Proof.
  intros Hreach. revert w.
  induction Hreach as [|st w0 a Hfs _ IH]; intros w Hq Hw.
  - by destruct Hq.
  - destruct (handler_quiz_origin w0 a st Hq) as [Hbefore|Hdata].
    + by apply IH.
    + rewrite (loader_data_files w w0) by congruence. done.
Qed.

Lemma run_reachable_with fs tr st :
  Forall (λ e : World * action, files e.1 = fs) tr →
  reachable_with fs st → reachable_with fs (run tr st).
Proof.
  intros Htr. revert st.
  induction Htr as [|[w a] tr Hw _ IH]; intros st H; simpl; [done|].
  apply IH. by constructor.
Qed.

(** C8. [restart_quiz], from any store, in the middle of a quiz or after
    submission, returns normally and leaves the session with the quiz that
    [create_quiz] builds: cursor at 0, [revealed] and [submitted] false, and
    every answer without value and without verdict.  This holds whenever the
    loader finds data, and so in particular for every session that has a
    quiz and whose files are still as they were when it was built. *)
Theorem restart_quiz_starts_afresh w st :
  loader_data w ≠ []
  ∨ (reachable_with (files w) st ∧ is_Some (quiz (session st))) →
  ∃ q st0 st',
    create_quiz w st = (Return q, st0)
    ∧ restart_quiz w st = (Return tt, st')
    ∧ session st'
      = {| quiz := Some q; revealed := Some false; submitted := Some false |}
    ∧ heap st' = heap st0
    ∧ current_index q = 0
    ∧ length (answers q) = length (biases q)
    ∧ (∀ i, (i < length (biases q))%nat → the_answer st' i = Some Answer_new)
    ∧ (∀ i a, the_answer st' i = Some a → a = Answer_new).
Proof.
  intros Hpre.
  assert (loader_data w ≠ []) as Hdata.
  { destruct Hpre as [?|[Hreach Hq]]; [done|].
    by apply (reachable_with_data (files w) st). }
  exists (created_quiz w st), (allocated (length (created_biases w)) st).
  eexists. split; [by apply create_quiz_cons|].
  split; [by apply restart_quiz_cons|].
  split; [done|]. split; [done|]. split; [done|].
  split; [apply length_seq|].
  assert (∀ i ans,
            seq (next_loc st) (length (created_biases w)) !! i = Some ans →
            heap (allocated (length (created_biases w)) st) !!! ans
            = Answer_new) as Hnew.
  { intros i ans Hans. apply allocated_new. by eapply list_elem_of_lookup_2. }
  split.
  - intros i Hi. unfold the_answer. psimpl.
    destruct (lookup_lt_is_Some_2
                (seq (next_loc st) (length (created_biases w))) i)
      as [ans Hans]; [by rewrite length_seq|].
    rewrite Hans. simpl. f_equal. by eapply Hnew.
  - intros i a. unfold the_answer. psimpl.
    destruct (seq (next_loc st) (length (created_biases w)) !! i)
      as [ans|] eqn:Hans; [|done].
    simpl. intros [= <-]. by eapply Hnew.
Qed.

Lemma restart_quiz_starts_afresh_witness :
  let st := run (example_trace ++ [(example_world, Submit)]) init_store in
  (reachable_with (files example_world) st
   ∧ is_Some (quiz (session st))
   ∧ submitted (session st) = Some true
   ∧ the_answer st 0 = Some {| value := Some true; is_correct := Some true |})
  ∧ ∃ st', restart_quiz example_world st = (Return tt, st')
           ∧ revealed (session st') = Some false
           ∧ submitted (session st') = Some false
           ∧ (∀ i a, the_answer st' i = Some a → a = Answer_new).
Proof.
  intros st.
  assert (reachable_with (files example_world) st) as Hreach.
  { apply run_reachable_with; [|constructor].
    repeat constructor. }
  assert (is_Some (quiz (session st))) as Hq by (vm_compute; eauto).
  split.
  { split; [exact Hreach|]. split; [exact Hq|].
    split; vm_compute; reflexivity. }
  destruct (restart_quiz_starts_afresh example_world st
              (or_intror (conj Hreach Hq)))
    as (q & st0 & st' & _ & Hrestart & Hsession & _ & _ & _ & _ & Hnew).
  exists st'. split; [exact Hrestart|].
  rewrite Hsession. split; [reflexivity|]. split; [reflexivity|].
  exact Hnew.
Defined.

(** ** What [set_answer] leaves alone *)

Lemma set_answer_keeps_quiz w v h n q r s :
  quiz (session (set_answer w v (running h n q r s)).2) = Some q
  ∧ submitted (session (set_answer w v (running h n q r s)).2) = Some s
  ∧ next_loc (set_answer w v (running h n q r s)).2 = n.
Proof.
  destruct s.
  { by rewrite set_answer_submitted. }
  rewrite set_answer_running. case_bool_decide; [done|].
  by destruct (py_index (biases q) (current_index q)),
              (py_index (answers q) (current_index q)).
Qed.

Lemma set_answer_guarded w v h n q r s :
  s = true ∨ Z.of_nat (length (biases q)) ≤ current_index q →
  set_answer w v (running h n q r s) = (Return tt, running h n q r s).
Proof.
  intros Hguard. destruct s.
  { by apply set_answer_submitted. }
  destruct Hguard as [?|Hge]; [done|].
  rewrite set_answer_running. by rewrite bool_decide_eq_true_2.
Qed.

Lemma set_answer_other_answers w v h n q r s (j : nat) :
  NoDup (answers q) → 0 ≤ current_index q →
  Z.of_nat j ≠ current_index q →
  the_answer (set_answer w v (running h n q r s)).2 j
  = the_answer (running h n q r s) j.
Proof.
  intros Hnd Hidx Hj. destruct s.
  { by rewrite set_answer_submitted. }
  rewrite set_answer_running. case_bool_decide; [done|].
  destruct (py_index (biases q) (current_index q)) as [bias|]; [|done].
  rewrite py_index_nonneg by done.
  destruct (answers q !! Z.to_nat (current_index q)) as [ans|] eqn:Ha; [|done].
  simpl. rewrite !the_answer_running.
  destruct (answers q !! j) as [ans'|] eqn:Ha'; [|done].
  simpl. f_equal. unfold answered. apply lookup_total_insert_ne.
  intros ->. pose proof (NoDup_lookup _ _ _ _ Hnd Ha Ha'). lia.
Qed.

(** C9, as stated, fails: with the cursor at [-1], which is out of bounds,
    the guard [i >= len(q.biases)] does not fire, Python's [q.answers[-1]]
    is the last answer, and [set_answer] writes to it and sets
    [revealed]. *)
Lemma set_answer_negative_cursor_writes :
  let st := running {[ 0%nat := Answer_new ]} 1 stray_quiz false false in
  let st' := (set_answer example_world true st).2 in
  ¬ (0 ≤ current_index stray_quiz
       < Z.of_nat (length (biases stray_quiz)))
  ∧ Z.of_nat 0 ≠ current_index stray_quiz
  ∧ the_answer st 0 = Some Answer_new
  ∧ the_answer st' 0
    = Some {| value := Some true; is_correct := Some true |}
  ∧ revealed (session st') = Some true
  ∧ st' ≠ st.
Proof.
  intros st st'. split; [simpl; lia|]. split; [simpl; lia|].
  split; [vm_compute; reflexivity|]. split; [vm_compute; reflexivity|].
  split; [vm_compute; reflexivity|].
  intros Heq. apply (f_equal (λ s, revealed (session s))) in Heq.
  vm_compute in Heq. discriminate.
Qed.

(** C9, amended. [set_answer] never changes the quiz record (claims, answer
    references, cursor), nor [submitted]; when the answers are distinct
    objects and the cursor is not negative, every answer at an index other
    than the cursor is unchanged; and when the session is submitted or the
    cursor is at or past the number of claims (in particular when there is
    no claim and the cursor is not negative), the call returns normally and
    the whole store is unchanged. *)
Theorem set_answer_frame w v h n q r s :
  let st := running h n q r s in
  let st' := (set_answer w v st).2 in
  (quiz (session st') = Some q ∧ submitted (session st') = Some s)
  ∧ (NoDup (answers q) → 0 ≤ current_index q →
     ∀ j : nat, Z.of_nat j ≠ current_index q →
       the_answer st' j = the_answer st j)
  ∧ (s = true ∨ Z.of_nat (length (biases q)) ≤ current_index q →
     set_answer w v st = (Return tt, st)).
Proof.
  intros st st'. split; [|split].
  - destruct (set_answer_keeps_quiz w v h n q r s) as (Hq & Hs & _). done.
  - intros Hnd Hidx j Hj. by apply set_answer_other_answers.
  - apply set_answer_guarded.
Qed.

Lemma set_answer_frame_witness :
  let q := example_quiz 0 in
  let st := running example_heap 3 q false false in
  let st' := (set_answer example_world true st).2 in
  (NoDup (answers q) ∧ 0 ≤ current_index q ∧ Z.of_nat 1 ≠ current_index q)
  ∧ the_answer st' 1 = the_answer st 1
  ∧ the_answer st' 0 ≠ the_answer st 0.
Proof.
  intros q st st'.
  assert (NoDup (answers q)) as Hnd by (apply (NoDup_seq 0 3)).
  assert (0 ≤ current_index q) as Hidx by (simpl; lia).
  assert (Z.of_nat 1 ≠ current_index q) as Hj by (simpl; lia).
  split; [by repeat split|].
  split.
  - exact (proj1 (proj2 (set_answer_frame example_world true example_heap
                           3%nat q false false)) Hnd Hidx 1%nat Hj).
  - vm_compute. discriminate.
Defined.

(** ** Navigation at the ends *)

(** C10. At the first question [go_prev], and at the last question
    [go_next], leave the cursor where it is but still set [revealed] to
    whether the answer under the cursor has a value.  On a quiz whose
    [revealed] flag disagrees with that answer the call therefore changes
    the flag without moving: from true to false when the answer has no
    value, from false to true when it has one. *)
Theorem boundary_navigation_recomputes_revealed w :
  (∀ h n q r,
     length (answers q) = length (biases q) →
     0 ≤ current_index q < Z.of_nat (length (biases q)) →
     let st := running h n q r false in
     ∃ a, the_answer st (Z.to_nat (current_index q)) = Some a
          ∧ (current_index q = 0 →
             go_prev w st
             = (Return tt, running h n q (is_not_None (value a)) false))
          ∧ (current_index q = Z.of_nat (length (biases q)) - 1 →
             go_next w st
             = (Return tt, running h n q (is_not_None (value a)) false)))
  ∧ (go_prev w (running example_heap 3 (example_quiz 0) true false)
     = (Return tt, running example_heap 3 (example_quiz 0) false false))
  ∧ (go_next w (running example_heap 3 (example_quiz 2) true false)
     = (Return tt, running example_heap 3 (example_quiz 2) false false))
  ∧ (go_prev w (running example_heap 3 single_quiz false false)
     = (Return tt, running example_heap 3 single_quiz true false))
  ∧ (go_next w (running example_heap 3 single_quiz false false)
     = (Return tt, running example_heap 3 single_quiz true false)).
Proof.
  split.
  - intros h n q r Hlen Hidx st.
    destruct (the_answer_in_range h n q r false (current_index q) Hlen Hidx)
      as (ans & Ha & Hthe).
    exists (h !!! ans). split; [done|]. split.
    + intros H0. unfold st. rewrite go_prev_running.
      rewrite bool_decide_eq_false_2 by lia.
      rewrite <- (set_current_index_same q) at 1.
      rewrite look_at with (ans := ans) by (done || lia).
      by rewrite set_current_index_same.
    + intros HN. unfold st. rewrite go_next_running.
      rewrite bool_decide_eq_false_2 by lia.
      rewrite <- (set_current_index_same q) at 1.
      rewrite look_at with (ans := ans) by (done || lia).
      by rewrite set_current_index_same.
  - split; [|split; [|split]].
    + by rewrite go_prev_running.
    + by rewrite go_next_running.
    + by rewrite go_prev_running.
    + by rewrite go_next_running.
Qed.

Lemma boundary_navigation_recomputes_revealed_witness :
  let q := example_quiz 0 in
  let st := running example_heap 3 q true false in
  (length (answers q) = length (biases q)
   ∧ 0 ≤ current_index q < Z.of_nat (length (biases q)))
  ∧ ∃ a, the_answer st 0 = Some a
         ∧ (current_index q = 0 →
            go_prev example_world st
            = (Return tt, running example_heap 3 q (is_not_None (value a))
                 false)).
Proof.
  intros q st.
  assert (length (answers q) = length (biases q)) as Hlen by reflexivity.
  assert (0 ≤ current_index q < Z.of_nat (length (biases q))) as Hidx
    by (simpl; lia).
  split; [by split|].
  destruct (proj1 (boundary_navigation_recomputes_revealed example_world)
              example_heap 3%nat q true Hlen Hidx) as (a & Ha & Hprev & _).
  exists a. by split.
Defined.

(** In a reachable session the flag never disagrees: [revealed] is always
    whether the answer under the cursor has a value, so there the calls at
    the ends change nothing at all. *)
Lemma reachable_revealed_agrees st q :
  reachable st → quiz (session st) = Some q →
  ∃ a, the_answer st (Z.to_nat (current_index q)) = Some a
       ∧ revealed (session st) = Some (is_not_None (value a)).
Proof.
  intros Hreach Hq. apply reachable_Inv in Hreach.
  destruct (Inv_revealed st Hreach q Hq) as (ans & Ha & Hr).
  exists (heap st !!! ans). split; [|done].
  unfold the_answer. by rewrite Hq, Ha.
Qed.

(** In a reachable session the quiz has as many answers as claims, all of
    them distinct objects, and the cursor is in bounds. *)
Lemma reachable_wf st q :
  reachable st → quiz (session st) = Some q → wf_quiz q.
Proof. intros Hreach Hq. by apply (Inv_wf st (reachable_Inv st Hreach)). Qed.


(** ** More about the loader *)

Lemma load_loop_skips w fns1 fn fns2 data0 data :
  (∀ f, f ∈ fns1 → _try_and_load w f = Return []) →
  _try_and_load w fn = Return data → data ≠ [] →
  load_loop w (fns1 ++ fn :: fns2) data0 = Return data.
Proof.
  revert data0.
  induction fns1 as [|f fns1 IH]; intros data0 Hempty Hfn Hne; simpl.
  - rewrite Hfn. by destruct data.
  - rewrite (Hempty f) by by left.
    apply IH; [|done..]. intros f' Hf'. apply Hempty. by right.
Qed.

(** X1. The loader settles on the records of the first candidate file, in
    the order of [filenames], that yields any: candidates before it that are
    missing, do not parse, have no ["biases"] key or an empty list are
    passed over, and the candidates after it are not looked at. *)
Theorem loader_takes_first_nonempty w w' fns1 fn fns2 data :
  filenames = fns1 ++ fn :: fns2 →
  (∀ f, f ∈ fns1 → _try_and_load w f = Return []) →
  _try_and_load w fn = Return data → data ≠ [] →
  loader_result w = _try_and_load w fn
  ∧ loader_data w = data
  ∧ ((∀ f, f ∈ fns1 → files w' !! f = files w !! f) →
     files w' !! fn = files w !! fn →
     loader_result w' = loader_result w ∧ loader_data w' = loader_data w).
Proof.
  intros Hfns Hempty Hfn Hne.
  assert (loader_result w = Return data) as Hres.
  { unfold loader_result. rewrite Hfns. by apply load_loop_skips. }
  split; [by rewrite Hres|].
  split; [unfold loader_data; by rewrite Hres|].
  intros Hsame1 Hsame.
  assert (∀ f, files w' !! f = files w !! f →
               _try_and_load w' f = _try_and_load w f) as Htry.
  { intros f Hf. unfold _try_and_load. by rewrite Hf. }
  assert (loader_result w' = Return data) as Hres'.
  { unfold loader_result. rewrite Hfns. apply load_loop_skips; [|by rewrite Htry|done].
    intros f Hf. rewrite Htry by by apply Hsame1. by apply Hempty. }
  unfold loader_data. by rewrite Hres, Hres'.
Qed.

Lemma loader_takes_first_nonempty_witness :
  let data := [raw "Anchoring bias" true; raw "Lunar recall effect" false] in
  (filenames = ["./biases.json"%string]
               ++ "./data/biases.json"%string
               :: ["./biases/data/biases.json"%string]
   ∧ (∀ f, f ∈ ["./biases.json"%string] →
           _try_and_load fallback_world f = Return [])
   ∧ _try_and_load fallback_world "./data/biases.json" = Return data
   ∧ data ≠ [])
  ∧ loader_data fallback_world = data.
Proof.
  intros data.
  assert (filenames = ["./biases.json"%string]
                      ++ "./data/biases.json"%string
                      :: ["./biases/data/biases.json"%string]) as Hfns
    by reflexivity.
  assert (∀ f, f ∈ ["./biases.json"%string] →
               _try_and_load fallback_world f = Return []) as Hempty.
  { intros f Hf. apply list_elem_of_singleton in Hf as ->.
    vm_compute. reflexivity. }
  assert (_try_and_load fallback_world "./data/biases.json" = Return data)
    as Hfn by (vm_compute; reflexivity).
  assert (data ≠ []) as Hne by discriminate.
  split; [by repeat split|].
  exact (proj1 (proj2 (loader_takes_first_nonempty fallback_world
                         fallback_world _ _ _ data Hfns Hempty Hfn Hne))).
Defined.

(** X2. When a candidate yields records, [load_and_shuffle_data] returns
    normally, without touching the store, at most [limit] of them: as many
    as [min(limit, len(data))], each taken from the file as often as it
    occurs there at most; with [limit >= len(data)] it returns all of them,
    rearranged. *)
Theorem load_and_shuffle_data_sample w limit st :
  loader_data w ≠ [] →
  ∃ res rest,
    load_and_shuffle_data w limit st = (Return res, st)
    ∧ res ++ rest ≡ₚ loader_data w
    ∧ length res = (limit `min` length (loader_data w))%nat
    ∧ ((length (loader_data w) ≤ limit)%nat → res ≡ₚ loader_data w).
Proof.
  intros Hdata.
  exists (take limit (shuffle (entropy w) (loader_data w))),
         (drop limit (shuffle (entropy w) (loader_data w))).
  split; [by apply load_and_shuffle_data_cons|].
  split; [by rewrite take_drop, shuffle_Permutation|].
  split; [by rewrite length_take, shuffle_length|].
  intros Hle. rewrite take_ge by (rewrite shuffle_length; lia).
  apply shuffle_Permutation.
Qed.

Lemma load_and_shuffle_data_sample_witness :
  loader_data example_world ≠ []
  ∧ ∃ res rest,
      load_and_shuffle_data example_world 2 init_store
      = (Return res, init_store)
      ∧ res ++ rest ≡ₚ loader_data example_world
      ∧ length res = 2%nat.
Proof.
  assert (loader_data example_world ≠ []) as Hdata
    by (vm_compute; discriminate).
  split; [exact Hdata|].
  destruct (load_and_shuffle_data_sample example_world 2 init_store Hdata)
    as (res & rest & Hload & Hperm & Hlen & _).
  exists res, rest. split; [exact Hload|]. split; [exact Hperm|].
  rewrite Hlen. vm_compute. reflexivity.
Defined.

(** ** More about [get_state] *)

Lemma after_get_state_quiz w st q :
  quiz (session st) = Some q →
  after_get_state w st = with_session st (defaults (session st)).
Proof. intros Hq. unfold after_get_state. by rewrite Hq. Qed.



Lemma get_state_returned w st :
  (get_state w st).1 = Return tt →
  is_Some (quiz (session st)) ∨ loader_data w ≠ [].
Proof.
  intros Hret.
  destruct (quiz (session st)) as [q|] eqn:Hq; [left; eauto|].
  destruct (loader_data w) as [|d data] eqn:Hdata; [|by right].
  by rewrite get_state_raise in Hret.
Qed.

Lemma get_state_again w w' st :
  (get_state w st).1 = Return tt →
  get_state w' (get_state w st).2 = (Return tt, (get_state w st).2).
Proof.
  intros Hret. apply get_state_returned in Hret.
  rewrite (get_state_spec w st) by done. simpl.
  destruct (quiz (session (after_get_state w st))) as [q|] eqn:Hq.
  - destruct (after_get_state_some w st q Hq) as (_ & h & n & r & s & ->).
    apply get_state_running.
  - destruct (after_get_state_none w st Hq) as (Hq0 & Hdata & _).
    destruct Hret as [[? ?]|?]; congruence.
Qed.

(** X4. A second [get_state] changes nothing once the first has returned,
    whatever the files have become; and two calls in a row under the same
    files and generator are one call, also when they raise. *)
Theorem get_state_idempotent w w' st :
  ((get_state w st).1 = Return tt →
   get_state w' (get_state w st).2 = (Return tt, (get_state w st).2))
  ∧ (get_state w ;; get_state w) st = get_state w st.
Proof.
  split; [apply get_state_again|].
  destruct (get_state w st) as [[[]|e] st'] eqn:Hget.
  - erewrite bind_Return by exact Hget.
    pose proof (get_state_again w w st) as Hagain.
    rewrite Hget in Hagain. by apply Hagain.
  - by erewrite bind_Raise by exact Hget.
Qed.

Lemma get_state_idempotent_witness :
  let st1 := (get_state example_world init_store).2 in
  (get_state example_world init_store).1 = Return tt
  ∧ get_state fallback_world st1 = (Return tt, st1).
Proof.
  intros st1.
  assert ((get_state example_world init_store).1 = Return tt) as Hret
    by (vm_compute; reflexivity).
  split; [exact Hret|].
  exact (proj1 (get_state_idempotent example_world fallback_world init_store)
           Hret).
Defined.

(** ** Answered questions *)

(** What an event other than a restart does to a session that has a quiz:
    claims and answer references stay, and the only write to an answer is
    the one of [set_answer], to the answer under the cursor. *)
Lemma handler_running w a h n q r s :
  a ≠ Restart →
  ∃ h' q' r' s',
    (handler w a (running h n q r s)).2 = running h' n q' r' s'
    ∧ answers q' = answers q ∧ biases q' = biases q
    ∧ (h' = h
       ∨ ∃ ans v bias,
           a = AnswerWith v ∧ s = false ∧ q' = q
           ∧ py_index (answers q) (current_index q) = Some ans
           ∧ h' = answered h ans v bias)
    ∧ (s' = s ∨ a = Submit).
Proof.
  intros Ha. destruct s.
  { rewrite submitted_ignores by done. exists h, q, r, true. eauto 10. }
  destruct a; try done; cbn [handler].
  - rewrite get_state_running. exists h, q, r, false. eauto 10.
  - rewrite set_answer_running. case_bool_decide.
    { exists h, q, r, false. eauto 10. }
    destruct (py_index (biases q) (current_index q)) as [bias|];
      [|exists h, q, r, false; eauto 10].
    destruct (py_index (answers q) (current_index q)) as [ans|] eqn:Hans;
      [|exists h, q, r, false; eauto 10].
    exists (answered h ans v bias), q, true, false. simpl.
    split; [done|]. split; [done|]. split; [done|].
    split; [right; eauto 10|by left].
  - rewrite go_prev_running. unfold look.
    set (q' := if bool_decide (0 < current_index q)
               then set_current_index q (current_index q - 1) else q).
    assert (answers q' = answers q ∧ biases q' = biases q) as [Ha' Hb']
      by (unfold q'; by case_bool_decide).
    destruct (py_index (answers q') (current_index q')); simpl;
      (eexists _, _, _, _; split; [reflexivity|];
       split; [done|]; split; [done|]; split; by left).
  - rewrite go_next_running. unfold look.
    set (q' := if bool_decide (current_index q
                               < Z.of_nat (length (biases q)) - 1)
               then set_current_index q (current_index q + 1) else q).
    assert (answers q' = answers q ∧ biases q' = biases q) as [Ha' Hb']
      by (unfold q'; by case_bool_decide).
    destruct (py_index (answers q') (current_index q')); simpl;
      (eexists _, _, _, _; split; [reflexivity|];
       split; [done|]; split; [done|]; split; by left).
  - exists h, q, r, true. eauto 10.
Qed.

Lemma answered_keeps_value h ans0 v bias ans :
  is_not_None (value (h !!! ans)) = true →
  is_not_None (value (answered h ans0 v bias !!! ans)) = true.
Proof.
  intros Hv. unfold answered.
  destruct (decide (ans0 = ans)) as [->|Hne].
  - by rewrite lookup_total_insert_eq.
  - by rewrite lookup_total_insert_ne.
Qed.

Lemma forallb_answered_mono (h h' : gmap loc Answer) (l : list loc) :
  (∀ ans, is_not_None (value (h !!! ans)) = true →
          is_not_None (value (h' !!! ans)) = true) →
  forallb (λ ans, is_not_None (value (h !!! ans))) l = true →
  forallb (λ ans, is_not_None (value (h' !!! ans))) l = true.
Proof.
  intros Hmono. induction l as [|ans l IH]; simpl; [done|].
  intros [Hans Hl]%andb_prop. by rewrite Hmono, IH.
Qed.

(** X5. No event other than a restart takes a value away from an answer:
    once [all_answered] holds of the quiz of a session it holds after every
    page load, answer, move and submit, which also leave the quiz with the
    same claims and the same answers. *)
Theorem all_answered_stays w a h n q r s :
  a ≠ Restart →
  (all_answered q (running h n q r s)).1 = Return true →
  ∃ h' q' r' s',
    (handler w a (running h n q r s)).2 = running h' n q' r' s'
    ∧ answers q' = answers q ∧ biases q' = biases q
    ∧ (all_answered q' (running h' n q' r' s')).1 = Return true.
Proof.
  intros Ha Hall.
  destruct (handler_running w a h n q r s Ha)
    as (h' & q' & r' & s' & Hst & Hans & Hbs & Hheap & _).
  exists h', q', r', s'. split; [done|]. split; [done|]. split; [done|].
  unfold all_answered in *. simpl in *. rewrite Hans.
  injection Hall as Hall. f_equal.
  destruct Hheap as [->|(ans & v & bias & _ & _ & _ & _ & ->)]; [done|].
  apply (forallb_answered_mono h); [|done].
  intros ans'. apply answered_keeps_value.
Qed.

Lemma all_answered_stays_witness :
  let h := heap (run example_trace init_store) in
  let q := example_quiz 2 in
  (AnswerWith false ≠ Restart
   ∧ (all_answered q (running h 3 q true false)).1 = Return true)
  ∧ ∃ h' q' r' s',
      (handler empty_world (AnswerWith false)
         (running h 3 q true false)).2 = running h' 3 q' r' s'
      ∧ answers q' = answers q ∧ biases q' = biases q
      ∧ (all_answered q' (running h' 3 q' r' s')).1 = Return true.
Proof.
  intros h q.
  assert (AnswerWith false ≠ Restart) as Ha by discriminate.
  assert ((all_answered q (running h 3 q true false)).1 = Return true)
    as Hall by (vm_compute; reflexivity).
  split; [split; [exact Ha|exact Hall]|].
  exact (all_answered_stays empty_world (AnswerWith false) h 3%nat q
           true false Ha Hall).
Defined.

Lemma forallb_new (l : list loc) n st :
  (∀ ans, ans ∈ l → ans ∈ seq (next_loc st) n) → l ≠ [] →
  forallb (λ ans, is_not_None (value (heap (allocated n st) !!! ans))) l
  = false.
Proof.
  intros Hin Hne. destruct l as [|ans l]; [done|]. cbn [forallb].
  rewrite allocated_new by (apply Hin; by left). done.
Qed.

Lemma sum_of_ones_new (l : list loc) n st :
  (∀ ans, ans ∈ l → ans ∈ seq (next_loc st) n) →
  length (filter (λ ans, is_correct (heap (allocated n st) !!! ans)
                         = Some true) l) = 0%nat.
Proof.
  intros Hin. induction l as [|ans l IH]; [done|].
  rewrite filter_cons, allocated_new by (apply Hin; by left).
  rewrite decide_False by done.
  apply IH. intros ans' Hans'. apply Hin. by right.
Qed.

(** X6. The quiz that a successful [restart_quiz] leaves has at least one
    question, is not [all_answered], and scores [(0, N)]. *)
Theorem restarted_quiz_unanswered w st :
  loader_data w ≠ [] →
  ∃ q st',
    restart_quiz w st = (Return tt, st')
    ∧ quiz (session st') = Some q
    ∧ (0 < length (biases q))%nat
    ∧ all_answered q st' = (Return false, st')
    ∧ score q st' = (Return (0, Z.of_nat (length (biases q))), st').
Proof.
  intros Hdata. eexists _, _.
  split; [by apply restart_quiz_cons|]. split; [done|].
  pose proof (created_biases_nonempty w Hdata) as Hlen.
  split; [done|]. split.
  - unfold all_answered. psimpl. f_equal. f_equal. apply forallb_new; [done|].
    destruct (length (created_biases w)); [lia|done].
  - rewrite score_eq. unfold count_correct. psimpl.
    by rewrite sum_of_ones_new.
Qed.

Lemma restarted_quiz_unanswered_witness :
  let st := run example_trace init_store in
  loader_data fallback_world ≠ []
  ∧ ∃ q st',
      restart_quiz fallback_world st = (Return tt, st')
      ∧ all_answered q st' = (Return false, st')
      ∧ score q st' = (Return (0, 2), st').
Proof.
  intros st.
  assert (loader_data fallback_world ≠ []) as Hdata
    by (vm_compute; discriminate).
  split; [exact Hdata|].
  destruct (restarted_quiz_unanswered fallback_world st Hdata)
    as (q & st' & Hrestart & Hq & _ & Hall & Hscore).
  exists q, st'. split; [exact Hrestart|]. split; [exact Hall|].
  rewrite Hscore. do 3 f_equal.
  rewrite restart_quiz_cons in Hrestart by exact Hdata.
  injection Hrestart as <-. simpl in Hq. injection Hq as <-.
  vm_compute. reflexivity.
Defined.

Lemma filter_all_length {A} (P : A → Prop) `{∀ x, Decision (P x)}
    (l : list A) :
  length (filter P l) = length l → Forall P l.
Proof.
  induction l as [|x l IH]; [done|].
  rewrite filter_cons. destruct (decide (P x)); simpl.
  - intros [= Hl]. constructor; auto.
  - intros Hl. pose proof (length_filter P l). lia.
Qed.

(** X7. In a reachable session the score is within bounds,
    [0 <= correct <= total], and a full score means that every question has
    an answer. *)
Theorem score_within_bounds st q :
  reachable st → quiz (session st) = Some q →
  ∃ correct total,
    score q st = (Return (correct, total), st)
    ∧ total = Z.of_nat (length (biases q))
    ∧ 0 ≤ correct ≤ total
    ∧ (correct = total → (all_answered q st).1 = Return true).
Proof.
  intros Hreach Hq. apply reachable_Inv in Hreach.
  pose proof (wf_length q (Inv_wf st Hreach q Hq)) as Hlen.
  eexists _, _. split; [apply score_eq|]. split; [done|].
  unfold count_correct.
  pose proof (length_filter
                (λ ans, is_correct (heap st !!! ans) = Some true)
                (answers q)) as Hle.
  split; [lia|]. intros Hfull.
  assert (Forall (λ ans, is_correct (heap st !!! ans) = Some true)
            (answers q)) as Hall.
  { refine (filter_all_length _ _ _). lia. }
  unfold all_answered. simpl. f_equal.
  apply forallb_forall. intros ans Hin.
  apply list_elem_of_In, list_elem_of_lookup in Hin as [i Hi].
  destruct (lookup_lt_is_Some_2 (biases q) i) as [b Hb].
  { rewrite <- Hlen. by eapply lookup_lt_Some. }
  pose proof (Inv_consistent st Hreach q i b ans Hq Hb Hi) as Hc.
  rewrite Forall_lookup in Hall. specialize (Hall i ans Hi).
  unfold consistent in Hc. rewrite Hall in Hc.
  by destruct (value (heap st !!! ans)).
Qed.

Lemma score_within_bounds_witness :
  let st := run example_trace init_store in
  (reachable st ∧ quiz (session st) = Some (example_quiz 2))
  ∧ ∃ correct total,
      score (example_quiz 2) st = (Return (correct, total), st)
      ∧ 0 ≤ correct ≤ total.
Proof.
  intros st.
  assert (reachable st) as Hreach by (apply run_reachable, reachable_init).
  assert (quiz (session st) = Some (example_quiz 2)) as Hq
    by (vm_compute; reflexivity).
  split; [by split|].
  destruct (score_within_bounds st (example_quiz 2) Hreach Hq)
    as (c & t & Hscore & _ & Hbounds & _).
  exists c, t. split; [exact Hscore|exact Hbounds].
Defined.

(** X8. Answering the one question that is left completes the quiz: on an
    unsubmitted quiz whose cursor is in bounds, with one answer object per
    claim, in which every question other than the current one has an answer,
    [all_answered] holds after [set_answer]. *)
Theorem set_answer_completes w v h n q r :
  wf_quiz q →
  (∀ (j : nat) ans, answers q !! j = Some ans →
     Z.of_nat j ≠ current_index q → is_Some (value (h !!! ans))) →
  let st' := (set_answer w v (running h n q r false)).2 in
  quiz (session st') = Some q
  ∧ (all_answered q st').1 = Return true.
Proof.
  intros Hwf Hothers st'.
  destruct (wf_py_index q Hwf) as (bias & ans & Hb & Ha & _ & _).
  unfold st'.
  rewrite (set_answer_in_range w v h n q r bias ans);
    [|apply (wf_index q Hwf)|done..].
  split; [done|]. unfold all_answered. simpl. f_equal.
  apply forallb_forall. intros ans' Hin.
  apply list_elem_of_In, list_elem_of_lookup in Hin as [j Hj].
  unfold answered.
  destruct (decide (ans = ans')) as [->|Hne].
  - by rewrite lookup_total_insert_eq.
  - rewrite lookup_total_insert_ne by done.
    destruct (Hothers j ans' Hj) as [x Hx]; [|by rewrite Hx].
    intros Heq. apply Hne.
    assert (j = Z.to_nat (current_index q)) as -> by lia. congruence.
Qed.

Lemma set_answer_completes_witness :
  let q := example_quiz 0 in
  let h : gmap loc Answer :=
    <[2%nat := {| value := Some false; is_correct := Some false |}]>
      example_heap in
  (wf_quiz q
   ∧ ∀ (j : nat) ans, answers q !! j = Some ans →
       Z.of_nat j ≠ current_index q → is_Some (value (h !!! ans)))
  ∧ (all_answered q
       (set_answer example_world true (running h 3 q false false)).2).1
    = Return true.
Proof.
  intros q h.
  assert (wf_quiz q) as Hwf.
  { split; [reflexivity|apply (NoDup_seq 0 3)|simpl; lia]. }
  assert (∀ (j : nat) ans, answers q !! j = Some ans →
            Z.of_nat j ≠ current_index q → is_Some (value (h !!! ans)))
    as Hothers.
  { intros [|[|[|j]]] ans Hj Hne; simpl in *; try done;
      injection Hj as <-; vm_compute; eauto. }
  split; [by split|].
  exact (proj2 (set_answer_completes example_world true h 3%nat q false
                  Hwf Hothers)).
Defined.

(** ** The page and the sessions a user can drive *)

Lemma show_quiz_view_running h n q r r' s :
  wf_quiz q →
  show_quiz_view q r (running h n q r' s)
  = (Return
       ((if r then [] else [AnswerWith true; AnswerWith false])
        ++ if forallb (λ ans, is_not_None (value (h !!! ans))) (answers q)
           then []
           else (if bool_decide (current_index q = 0) then [] else [Prev])
                ++ (if bool_decide (current_index q
                                    = Z.of_nat (length (biases q)) - 1)
                    then [] else [Next])),
     running h n q r' s).
Proof.
  intros Hwf.
  destruct (wf_py_index q Hwf) as (bias & ans & _ & _ & Hb & Ha).
  unfold show_quiz_view, getitem. rewrite Hb, Ha.
  do 4 mstep. done.
Qed.

Lemma page_running w h n q r s :
  wf_quiz q →
  page w (running h n q r s) = (Return (controls h q r s), running h n q r s).
Proof.
  intros Hwf. unfold page.
  mstep_by ltac:(apply get_state_running). mstep.
  cbn [running session quiz]. mstep.
  destruct s.
  - mstep. done.
  - mstep. mstep_by ltac:(by apply show_quiz_view_running). mstep. done.
Qed.

Lemma render_running w h n q r s :
  wf_quiz q →
  render w (running h n q r s) = (controls h q r s, running h n q r s).
Proof. intros Hwf. unfold render. by rewrite page_running. Qed.

(** A run of the page continues from the store [get_state] leaves. *)
Lemma page_after_get_state w st h n q r s :
  get_state w st = (Return tt, running h n q r s) →
  page w st = page w (running h n q r s).
Proof.
  intros Hget. unfold page.
  erewrite bind_Return by exact Hget.
  symmetry. by erewrite bind_Return by apply get_state_running.
Qed.

Lemma page_returns w st :
  Inv st → is_Some (quiz (session st)) ∨ loader_data w ≠ [] →
  ∃ h n q r s,
    after_get_state w st = running h n q r s
    ∧ get_state w st = (Return tt, running h n q r s)
    ∧ page w st = (Return (controls h q r s), running h n q r s).
Proof.
  intros HI Hpre.
  pose proof (get_state_spec w st Hpre) as Hget.
  pose proof (Inv_after_get_state w st HI) as HI'.
  destruct (quiz (session (after_get_state w st))) as [q|] eqn:Hq.
  - destruct (after_get_state_some w st q Hq) as (_ & h & n & r & s & Hst).
    rewrite Hst in Hget, HI'. exists h, n, q, r, s.
    split; [done|]. split; [done|].
    rewrite (page_after_get_state w st h n q r s Hget).
    apply page_running. by apply (Inv_wf _ HI').
  - destruct (after_get_state_none w st Hq) as (Hq0 & Hdata & _).
    destruct Hpre as [[? ?]|?]; congruence.
Qed.

Lemma page_raise w st :
  quiz (session st) = None → loader_data w = [] →
  page w st = (Raise (loader_exn w), st).
Proof.
  intros Hq Hdata. unfold page.
  by erewrite bind_Raise by by apply get_state_raise.
Qed.

(** Which stores offer which button. *)
Lemma controls_elem h q r s a :
  a ∈ controls h q r s →
  match a with
  | Load => False
  | AnswerWith _ => s = false ∧ r = false
  | Prev =>
      s = false ∧ current_index q ≠ 0
      ∧ forallb (λ ans, is_not_None (value (h !!! ans))) (answers q) = false
  | Next =>
      s = false ∧ current_index q ≠ Z.of_nat (length (biases q)) - 1
      ∧ forallb (λ ans, is_not_None (value (h !!! ans))) (answers q) = false
  | Submit =>
      s = false
      ∧ forallb (λ ans, is_not_None (value (h !!! ans))) (answers q) = true
  | Restart => s = true
  end.
Proof.
  unfold controls.
  destruct (decide (current_index q = 0)) as [H0|H0];
    destruct (decide (current_index q = Z.of_nat (length (biases q)) - 1))
      as [H1|H1];
    rewrite ?(bool_decide_eq_true_2 _ H0), ?(bool_decide_eq_false_2 _ H0),
      ?(bool_decide_eq_true_2 _ H1), ?(bool_decide_eq_false_2 _ H1);
    destruct s, r,
      (forallb (λ ans, is_not_None (value (h !!! ans))) (answers q));
    simpl; rewrite ?elem_of_cons, ?elem_of_nil; destruct a; intros Hin;
    repeat (destruct Hin as [Hin|Hin]); try discriminate Hin; try done.
Qed.

Lemma ui_Inv_running h n q r s :
  Inv (running h n q r s) →
  (s = true →
   forallb (λ ans, is_not_None (value (h !!! ans))) (answers q) = true) →
  ∀ w, ui_Inv (render w (running h n q r s)).2
              (render w (running h n q r s)).1.
Proof.
  intros HI Hs w. rewrite render_running by by apply (Inv_wf _ HI).
  split; [done|]. right. exists h, n, q, r, s.
  split; [done|]. split; [by left|done].
Qed.

Lemma ui_Inv_init w :
  ui_Inv (render w init_store).2 (render w init_store).1.
Proof.
  unfold render.
  destruct (loader_data w) as [|d data] eqn:Hdata.
  - rewrite page_raise by done. simpl. split; [apply Inv_init|by left].
  - assert (is_Some (quiz (session init_store)) ∨ loader_data w ≠ [])
      as Hpre by (right; by rewrite Hdata).
    destruct (page_returns w init_store Inv_init Hpre)
      as (h & n & q & r & s & Hst & _ & ->). simpl.
    pose proof (Inv_after_get_state w init_store Inv_init) as HI.
    rewrite Hst in HI. split; [done|].
    right. exists h, n, q, r, s. split; [done|]. split; [by left|].
    intros ->. exfalso. revert Hst. unfold after_get_state.
    cbn [init_store session new_session quiz]. rewrite Hdata.
    unfold with_session, defaults, running. simpl. intros [=].
Qed.

(** The store after a click, when the session has a quiz. *)
Lemma click_running w a h n q r s :
  Inv (running h n q r s) →
  (s = true →
   forallb (λ ans, is_not_None (value (h !!! ans))) (answers q) = true) →
  a ∈ controls h q r s →
  ∃ h' n' q' r' s',
    (handler w a (running h n q r s)).2 = running h' n' q' r' s'
    ∧ Inv (running h' n' q' r' s')
    ∧ (s' = true →
       forallb (λ ans, is_not_None (value (h' !!! ans))) (answers q') = true).
Proof.
  intros HI Hs Ha.
  pose proof (Inv_handler w a _ HI) as HI'.
  pose proof (controls_elem h q r s a Ha) as Hoffer.
  destruct (decide (a = Restart)) as [->|Hne].
  - cbn [handler] in *.
    destruct (loader_data w) as [|d data] eqn:Hdata.
    + rewrite restart_quiz_nil in * by done. eauto 10.
    + rewrite restart_quiz_cons in * by by rewrite Hdata.
      eexists _, _, _, false, false. split; [reflexivity|]. done.
  - destruct (handler_running w a h n q r s Hne)
      as (h' & q' & r' & s' & Hst & Hans & _ & Hheap & Hs').
    rewrite Hst in HI'. exists h', n, q', r', s'.
    split; [done|]. split; [done|]. intros ->.
    destruct Hs' as [<-| ->].
    + rewrite Hans. apply (forallb_answered_mono h); [|by apply Hs].
      destruct Hheap as [->|(ans & v & bias & _ & _ & _ & _ & ->)];
        [done|].
      intros ans'. apply answered_keeps_value.
    + destruct Hoffer as [_ Hdone]. rewrite Hans.
      by destruct Hheap as [->|(? & ? & ? & [=] & _)].
Qed.

Lemma ui_reachable_Inv st cs : ui_reachable st cs → ui_Inv st cs.
Proof.
  induction 1 as [w|st cs a w w' _ IH Ha|st cs w _ IH];
    [apply ui_Inv_init| |].
  - destruct IH as [HI [[-> ->]|(h & n & q & r & s & -> & Hcs & Hs)]].
    { by apply elem_of_nil in Ha. }
    destruct Hcs as [->| ->]; [|by apply elem_of_nil in Ha].
    destruct (click_running w a h n q r s HI Hs Ha)
      as (h' & n' & q' & r' & s' & Hst & HI' & Hs').
    unfold click.
    destruct (handler w a (running h n q r s)) as [[u|e] st1];
      simpl in Hst; subst st1.
    + by apply ui_Inv_running.
    + simpl. split; [done|]. right. exists h', n', q', r', s'.
      split; [done|]. split; [by right|done].
  - destruct IH as [HI [[-> ->]|(h & n & q & r & s & -> & _ & Hs)]].
    + apply ui_Inv_init.
    + by apply ui_Inv_running.
Qed.

(** A session in which a button can be clicked has a quiz. *)
Lemma ui_reachable_running st cs a :
  ui_reachable st cs → a ∈ cs →
  ∃ h n q r s,
    st = running h n q r s ∧ cs = controls h q r s
    ∧ Inv (running h n q r s)
    ∧ (s = true →
       forallb (λ ans, is_not_None (value (h !!! ans))) (answers q) = true).
Proof.
  intros Hreach Ha.
  destruct (ui_reachable_Inv st cs Hreach)
    as [HI [[-> ->]|(h & n & q & r & s & -> & Hcs & Hs)]].
  { by apply elem_of_nil in Ha. }
  destruct Hcs as [->| ->]; [|by apply elem_of_nil in Ha].
  exists h, n, q, r, s. done.
Qed.

Lemma ui_run_reachable w clicks p p' :
  ui_reachable p.2 p.1 → ui_run w clicks p = Some p' →
  ui_reachable p'.2 p'.1.
Proof.
  revert p. induction clicks as [|a clicks IH]; intros p Hreach; simpl.
  - by intros [= <-].
  - case_bool_decide as Ha; [|done]. apply IH. by eapply ui_click.
Qed.

Lemma example_session_reachable :
  ui_reachable example_session.2 example_session.1.
Proof.
  apply (ui_run_reachable example_world example_clicks
           (render example_world init_store)).
  - apply ui_open.
  - vm_compute. reflexivity.
Qed.







(** X12. Through the page an answer is final: the answer buttons are only
    there while the current question has no value, so no click other than
    the restart changes an answer that has one. *)
Theorem answers_are_final st cs a w i x :
  ui_reachable st cs → a ∈ cs → a ≠ Restart →
  the_answer st i = Some x → is_Some (value x) →
  the_answer (handler w a st).2 i = Some x.
Proof.
  intros Hreach Ha Hne Hx Hset.
  destruct (ui_reachable_running st cs a Hreach Ha)
    as (h & n & q & r & s & -> & -> & HI & Hs).
  pose proof (controls_elem h q r s a Ha) as Hoffer.
  destruct (handler_running w a h n q r s Hne)
    as (h' & q' & r' & s' & -> & Hans & _ & Hheap & _).
  rewrite the_answer_running in Hx |- *. rewrite Hans.
  destruct (answers q !! i) as [l|]; [|done].
  simpl in Hx |- *. injection Hx as <-. f_equal.
  destruct Hheap as [->|(ans & v & bias & -> & -> & _ & Hcur & ->)]; [done|].
  destruct Hoffer as [_ ->].
  destruct (Inv_revealed _ HI q eq_refl) as (ans0 & Hans0 & Hrev).
  pose proof (wf_index q (Inv_wf _ HI q eq_refl)) as Hidx.
  rewrite py_index_nonneg, Hans0 in Hcur by lia. injection Hcur as <-.
  simpl in Hrev. injection Hrev as Hrev.
  unfold answered. apply lookup_total_insert_ne. intros ->.
  destruct Hset as [b Hb]. by rewrite Hb in Hrev.
Qed.

Lemma answers_are_final_witness :
  let p := default ([], init_store)
             (ui_run example_world [AnswerWith true; Next]
                (render example_world init_store)) in
  let x := {| value := Some true; is_correct := Some true |} in
  (ui_reachable p.2 p.1 ∧ AnswerWith false ∈ p.1
   ∧ AnswerWith false ≠ Restart
   ∧ the_answer p.2 0 = Some x ∧ is_Some (value x))
  ∧ the_answer (handler example_world (AnswerWith false) p.2).2 0 = Some x.
Proof.
  intros p x.
  assert (ui_reachable p.2 p.1) as Hreach.
  { apply (ui_run_reachable example_world [AnswerWith true; Next]
             (render example_world init_store)); [apply ui_open|].
    vm_compute. reflexivity. }
  assert (AnswerWith false ∈ p.1) as Ha by (vm_compute; repeat constructor).
  assert (AnswerWith false ≠ Restart) as Hne by discriminate.
  assert (the_answer p.2 0 = Some x) as Hx by (vm_compute; reflexivity).
  assert (is_Some (value x)) as Hset by (eexists; reflexivity).
  split; [repeat split; assumption|].
  exact (answers_are_final p.2 p.1 (AnswerWith false) example_world 0%nat x
           Hreach Ha Hne Hx Hset).
Defined.

(** X13. The navigation buttons of the page are never dead: when the
    "previous" button is there the cursor is past the first question and
    [go_prev] moves it back by one, and when the "next" button is there the
    cursor is before the last question and [go_next] moves it on by one. *)
Theorem offered_navigation_moves st cs w :
  ui_reachable st cs →
  (Prev ∈ cs →
   ∃ q, quiz (session st) = Some q
        ∧ 0 < current_index q
        ∧ (go_prev w st).1 = Return tt
        ∧ quiz (session (go_prev w st).2)
          = Some (set_current_index q (current_index q - 1)))
  ∧ (Next ∈ cs →
     ∃ q, quiz (session st) = Some q
          ∧ current_index q < Z.of_nat (length (biases q)) - 1
          ∧ (go_next w st).1 = Return tt
          ∧ quiz (session (go_next w st).2)
            = Some (set_current_index q (current_index q + 1))).
Proof.
  intros Hreach. split; intros Ha.
  - destruct (ui_reachable_running st cs Prev Hreach Ha)
      as (h & n & q & r & s & -> & -> & HI & Hs).
    destruct (controls_elem h q r s Prev Ha) as (-> & H0 & _).
    pose proof (Inv_wf _ HI q eq_refl) as [Hlen _ Hidx].
    exists q. split; [done|]. split; [lia|].
    destruct (go_prev_in_range w h n q r Hlen Hidx) as (x & _ & ->).
    split; [done|]. simpl. do 2 f_equal. lia.
  - destruct (ui_reachable_running st cs Next Hreach Ha)
      as (h & n & q & r & s & -> & -> & HI & Hs).
    destruct (controls_elem h q r s Next Ha) as (-> & HN & _).
    pose proof (Inv_wf _ HI q eq_refl) as [Hlen _ Hidx].
    exists q. split; [done|]. split; [lia|].
    destruct (go_next_in_range w h n q r Hlen Hidx) as (x & _ & ->).
    split; [done|]. simpl. do 2 f_equal. lia.
Qed.

Lemma offered_navigation_moves_witness :
  let st := (render example_world init_store).2 in
  let cs := (render example_world init_store).1 in
  (ui_reachable st cs ∧ Next ∈ cs)
  ∧ ∃ q, quiz (session st) = Some q
         ∧ current_index q < Z.of_nat (length (biases q)) - 1
         ∧ (go_next empty_world st).1 = Return tt
         ∧ quiz (session (go_next empty_world st).2)
           = Some (set_current_index q (current_index q + 1)).
Proof.
  intros st cs.
  assert (ui_reachable st cs) as Hreach by apply ui_open.
  assert (Next ∈ cs) as Ha by (vm_compute; repeat constructor).
  split; [split; [exact Hreach|exact Ha]|].
  exact (proj2 (offered_navigation_moves st cs empty_world Hreach) Ha).
Defined.

Lemma result_row_cases bias a :
  consistent bias a → is_Some (value a) →
  ∀ verdict chosen expected,
    result_row bias a = (verdict, chosen, expected) →
    chosen ≠ "—"
    ∧ (verdict = "✅ Correct" ∧ chosen = expected
       ∨ verdict = "❌ Incorrect" ∧ chosen ≠ expected).
Proof.
  unfold consistent, result_row. intros Hc [v Hv] verdict chosen expected.
  rewrite Hc, Hv.
  destruct v, (is_authentic bias); simpl; intros [= <- <- <-];
    (split; [done|]); (by left) || (by right).
Qed.

(** X14. The results list of a session driven through the page has one
    row for each claim; no row shows the placeholder for a missing choice,
    and a row says "Correct" exactly when the chosen label is the expected
    one. *)
Theorem results_rows_consistent st cs :
  ui_reachable st cs → submitted (session st) = Some true →
  ∃ q rows,
    quiz (session st) = Some q
    ∧ result_rows q st = (Return rows, st)
    ∧ length rows = length (biases q)
    ∧ ∀ verdict chosen expected,
        (verdict, chosen, expected) ∈ rows →
        chosen ≠ "—"
        ∧ (verdict = "✅ Correct" ∧ chosen = expected
           ∨ verdict = "❌ Incorrect" ∧ chosen ≠ expected).
Proof.
  intros Hreach Hsub.
  destruct (ui_reachable_Inv st cs Hreach)
    as [HI [[-> _]|(h & n & q & r & s & -> & _ & Hs)]].
  { discriminate Hsub. }
  simpl in Hsub. injection Hsub as ->. specialize (Hs eq_refl).
  pose proof (wf_length q (Inv_wf _ HI q eq_refl)) as Hlen.
  exists q. eexists. split; [done|]. split; [reflexivity|].
  split.
  - rewrite length_fmap, length_zip_with. lia.
  - intros verdict chosen expected Hrow.
    apply list_elem_of_fmap in Hrow as ([b ans] & Hrow & Hin).
    apply list_elem_of_lookup in Hin as [i Hi].
    apply lookup_zip_with_Some in Hi as (b' & ans' & [= <- <-] & Hb & Hans).
    simpl in Hrow. symmetry in Hrow.
    apply (result_row_cases b (h !!! ans)); [| |done].
    + by apply (Inv_consistent _ HI q i).
    + rewrite forallb_forall in Hs.
      specialize (Hs ans). simpl in Hs.
      destruct (value (h !!! ans)); [eauto|].
      discriminate Hs. apply list_elem_of_In. by eapply list_elem_of_lookup_2.
Qed.

Lemma results_rows_consistent_witness :
  (ui_reachable example_session.2 example_session.1
   ∧ submitted (session example_session.2) = Some true)
  ∧ ∃ q rows,
      quiz (session example_session.2) = Some q
      ∧ result_rows q example_session.2 = (Return rows, example_session.2)
      ∧ length rows = length (biases q).
Proof.
  assert (submitted (session example_session.2) = Some true) as Hsub
    by (vm_compute; reflexivity).
  split; [split; [exact example_session_reachable|exact Hsub]|].
  destruct (results_rows_consistent example_session.2 example_session.1
              example_session_reachable Hsub)
    as (q & rows & Hq & Hrows & Hlen & _).
  exists q, rows. split; [exact Hq|]. split; [exact Hrows|exact Hlen].
Defined.

(** ** Where the quiz of a session comes from *)

Lemma after_get_state_origin w st h n q1 r s :
  after_get_state w st = running h n q1 r s →
  quiz (session st) = Some q1
  ∨ (loader_data w ≠ [] ∧ q1 = created_quiz w st
     ∧ quiz (session st) = None).
Proof.
  unfold after_get_state, running, with_session, defaults.
  destruct (quiz (session st)) as [q|] eqn:Hq.
  - intros [= _ _ <- _ _]. by left.
  - destruct (loader_data w) as [|d data].
    { intros Hst. rewrite Hst in Hq. discriminate Hq. }
    intros [= _ _ <- _ _]. right. done.
Qed.

(** The quiz after an event has the claims and answers of the quiz before
    it, or is one that the event has just built from the files. *)
Lemma handler_quiz_cases w a st q' :
  quiz (session (handler w a st).2) = Some q' →
  (∃ q, quiz (session st) = Some q
        ∧ biases q' = biases q ∧ answers q' = answers q)
  ∨ (loader_data w ≠ []
     ∧ biases q' = created_biases w
     ∧ answers q' = seq (next_loc st) (length (created_biases w))).
Proof.
  intros Hq'.
  assert (∀ h n q1 r s,
            after_get_state w st = running h n q1 r s →
            biases q' = biases q1 → answers q' = answers q1 →
            (∃ q, quiz (session st) = Some q
                  ∧ biases q' = biases q ∧ answers q' = answers q)
            ∨ (loader_data w ≠ []
               ∧ biases q' = created_biases w
               ∧ answers q' = seq (next_loc st) (length (created_biases w))))
    as Hfinish.
  { intros h n q1 r s Hst Hb Ha.
    destruct (after_get_state_origin w st h n q1 r s Hst)
      as [Hq|(Hdata & -> & _)].
    - left. exists q1. done.
    - right. by rewrite Hb, Ha. }
  assert (is_callback a →
          (∃ q, quiz (session st) = Some q
                ∧ biases q' = biases q ∧ answers q' = answers q)
          ∨ (loader_data w ≠ []
             ∧ biases q' = created_biases w
             ∧ answers q' = seq (next_loc st) (length (created_biases w))))
    as Hcallback.
  { intros Hcb.
    destruct (quiz (session (after_get_state w st))) as [q1|] eqn:Hq1.
    - destruct (after_get_state_some w st q1 Hq1) as (_ & h & n & r & s & Hst).
      rewrite (callback_quiz w a st h n q1 r s) in Hq' by done.
      destruct (handler_running w a h n q1 r s)
        as (h' & q'' & r' & s' & Hrun & Ha & Hb & _); [by destruct a|].
      rewrite Hrun in Hq'. injection Hq' as ->.
      by apply (Hfinish h n q1 r s).
    - destruct (after_get_state_none w st Hq1) as (Hq0 & Hdata & _).
      rewrite callback_raise in Hq' by done. simpl in Hq'. congruence. }
  destruct a; try (by apply Hcallback).
  - cbn [handler] in Hq'. rewrite get_state_store in Hq'.
    destruct (after_get_state_some w st q' Hq') as (_ & h & n & r & s & Hst).
    by apply (Hfinish h n q' r s).
  - simpl in Hq'. left. exists q'. done.
  - cbn [handler] in Hq'.
    destruct (loader_data w) as [|d data] eqn:Hdata.
    + rewrite restart_quiz_nil in Hq' by done. left. eauto.
    + rewrite restart_quiz_cons in Hq' by by rewrite Hdata.
      injection Hq' as <-. right. done.
Qed.

Lemma reachable_at_most_limit st q :
  reachable st → quiz (session st) = Some q →
  (length (biases q) ≤ default_limit)%nat.
Proof.
  intros Hreach. revert q.
  induction Hreach as [|st w a _ IH]; intros q' Hq'; [done|].
  destruct (handler_quiz_cases w a st q' Hq')
    as [(q & Hq & -> & _)|(_ & -> & _)].
  - by apply IH.
  - rewrite created_biases_length. lia.
Qed.

(** X15. In every reachable session that has a quiz, the quiz has as many
    answers as claims, between one and ten claims, and a cursor that points
    at one of them. *)
Theorem reachable_quiz_shape st q :
  reachable st → quiz (session st) = Some q →
  length (answers q) = length (biases q)
  ∧ (1 ≤ length (biases q) ≤ 10)%nat
  ∧ 0 ≤ current_index q < Z.of_nat (length (biases q)).
Proof.
  intros Hreach Hq.
  pose proof (reachable_at_most_limit st q Hreach Hq) as Hmax.
  destruct (Inv_wf st (reachable_Inv st Hreach) q Hq) as [Hlen _ Hidx].
  unfold default_limit in Hmax. repeat split; try done; lia.
Qed.

Lemma reachable_quiz_shape_witness :
  let st := run example_trace init_store in
  let q := example_quiz 2 in
  (reachable st ∧ quiz (session st) = Some q)
  ∧ length (answers q) = length (biases q)
  ∧ (1 ≤ length (biases q) ≤ 10)%nat
  ∧ 0 ≤ current_index q < Z.of_nat (length (biases q)).
Proof.
  intros st q.
  assert (reachable st) as Hreach by (apply run_reachable, reachable_init).
  assert (quiz (session st) = Some q) as Hq by (vm_compute; reflexivity).
  split; [split; [exact Hreach|exact Hq]|].
  exact (reachable_quiz_shape st q Hreach Hq).
Defined.

(** X16. In every reachable session [revealed] says whether the question
    under the cursor has an answer: with a quiz the flag is assigned and
    equals [answers[current_index].value is not None]; without a quiz it is
    never true. *)
Theorem revealed_tracks_current_answer st :
  reachable st →
  match quiz (session st) with
  | Some q =>
      ∃ a, the_answer st (Z.to_nat (current_index q)) = Some a
           ∧ revealed (session st) = Some (is_not_None (value a))
  | None => revealed (session st) ≠ Some true
  end.
Proof.
  intros Hreach. apply reachable_Inv in Hreach.
  destruct (quiz (session st)) as [q|] eqn:Hq.
  - destruct (Inv_revealed st Hreach q Hq) as (ans & Ha & Hr).
    exists (heap st !!! ans). split; [|done].
    unfold the_answer. by rewrite Hq, Ha.
  - by apply (Inv_no_quiz st Hreach).
Qed.

Lemma revealed_tracks_current_answer_witness :
  let st := run [(example_world, Load); (example_world, AnswerWith true);
                 (example_world, Next)] init_store in
  reachable st
  ∧ ∃ a, the_answer st 1 = Some a
         ∧ revealed (session st) = Some (is_not_None (value a)).
Proof.
  intros st.
  assert (reachable st) as Hreach by (apply run_reachable, reachable_init).
  split; [exact Hreach|].
  pose proof (revealed_tracks_current_answer st Hreach) as H.
  assert (quiz (session st) = Some (example_quiz 1)) as Hq
    by (vm_compute; reflexivity).
  rewrite Hq in H. exact H.
Defined.

(** ** Which events can raise *)

Lemma callback_running_outcome w a h n q r s :
  is_callback a → wf_quiz q →
  (handler w a (running h n q r s)).1 = Return tt.
Proof.
  intros Ha Hwf. destruct s.
  { rewrite submitted_ignores; [done|by destruct a]. }
  destruct a; try done; cbn [handler].
  - destruct (wf_py_index q Hwf) as (bias & ans & Hb & Hans & _ & _).
    rewrite (set_answer_in_range w v h n q r bias ans);
      [done|apply (wf_index q Hwf)|done..].
  - destruct (go_prev_in_range w h n q r (wf_length q Hwf) (wf_index q Hwf))
      as (x & _ & ->). done.
  - destruct (go_next_in_range w h n q r (wf_length q Hwf) (wf_index q Hwf))
      as (x & _ & ->). done.
Qed.

(** X17. In a reachable session an event raises only where [create_quiz]
    raises: in the restart, and in a page run or an answer or navigation
    callback on a session without a quiz, whose [get_state] lets the
    exception through.  The store is then left as it was.  The callbacks
    themselves raise nothing in a reachable session: no index is out of
    range, and [state.quiz] is read only where it is assigned. *)
Theorem events_raise_only st w a :
  reachable st →
  (handler w a st).1 = Return tt
  ∨ ((a = Restart ∨ (a ≠ Submit ∧ quiz (session st) = None))
     ∧ loader_data w = []
     ∧ ∃ e, create_quiz w st = (Raise e, st)
            ∧ handler w a st = (Raise e, st)).
Proof.
  intros Hreach. apply reachable_Inv in Hreach.
  assert (a ≠ Submit → quiz (session st) = None → loader_data w = [] →
          handler w a st = (Raise (loader_exn w), st) →
          (handler w a st).1 = Return tt
          ∨ ((a = Restart ∨ (a ≠ Submit ∧ quiz (session st) = None))
             ∧ loader_data w = []
             ∧ ∃ e, create_quiz w st = (Raise e, st)
                    ∧ handler w a st = (Raise e, st))) as Hraise.
  { intros Hne Hq Hdata Hh. right. split; [by right|]. split; [done|].
    exists (loader_exn w). split; [by apply create_quiz_nil|done]. }
  assert (is_callback a →
          (handler w a st).1 = Return tt
          ∨ ((a = Restart ∨ (a ≠ Submit ∧ quiz (session st) = None))
             ∧ loader_data w = []
             ∧ ∃ e, create_quiz w st = (Raise e, st)
                    ∧ handler w a st = (Raise e, st))) as Hcallback.
  { intros Hcb.
    pose proof (Inv_after_get_state w st Hreach) as HI.
    destruct (quiz (session (after_get_state w st))) as [q1|] eqn:Hq1.
    - destruct (after_get_state_some w st q1 Hq1) as (_ & h & n & r & s & Hst).
      left. rewrite (callback_quiz w a st h n q1 r s) by done.
      apply callback_running_outcome; [done|].
      rewrite Hst in HI. by apply (Inv_wf _ HI).
    - destruct (after_get_state_none w st Hq1) as (Hq0 & Hdata & _).
      apply Hraise; [by destruct a|done..|by apply callback_raise]. }
  destruct a; try (by apply Hcallback).
  - cbn [handler].
    destruct (quiz (session (after_get_state w st))) as [q1|] eqn:Hq1.
    + destruct (after_get_state_some w st q1 Hq1) as (Hpre & _).
      left. by rewrite get_state_spec.
    + destruct (after_get_state_none w st Hq1) as (Hq0 & Hdata & _).
      apply Hraise; [done..|]. cbn [handler]. by apply get_state_raise.
  - by left.
  - cbn [handler]. destruct (loader_data w) as [|d data] eqn:Hdata.
    + right. split; [by left|]. split; [done|]. exists (loader_exn w).
      split; [by apply create_quiz_nil|by apply restart_quiz_nil].
    + left. by rewrite restart_quiz_cons by by rewrite Hdata.
Qed.

Lemma events_raise_only_witness :
  reachable init_store
  ∧ handler empty_world Next init_store = (Raise StopException, init_store)
  ∧ handler broken_world Restart init_store
    = (Raise AttributeError, init_store)
  ∧ (handler example_world Next init_store).1 = Return tt.
Proof.
  split; [exact reachable_init|].
  split; [|split; vm_compute; reflexivity].
  destruct (events_raise_only init_store empty_world Next reachable_init)
    as [Hret|(_ & _ & e & Hcreate & Hraise)].
  - exfalso. revert Hret. vm_compute. discriminate.
  - assert (e = StopException) as <-; [|exact Hraise].
    revert Hcreate. vm_compute. intros [= <-]. reflexivity.
Defined.


(** X19. The claims of a quiz and its answer objects are fixed once it is
    built: after any event other than a restart, on any session that has a
    quiz, the session still has a quiz with the same list of claims and the
    same list of answer references. *)
Theorem quiz_claims_fixed w a st q :
  quiz (session st) = Some q → a ≠ Restart →
  ∃ q', quiz (session (handler w a st).2) = Some q'
        ∧ biases q' = biases q ∧ answers q' = answers q.
Proof.
  intros Hq Hne.
  assert (after_get_state w st
          = running (heap st) (next_loc st) q
              (default false (revealed (session st)))
              (default false (submitted (session st)))) as Hst.
  { rewrite (after_get_state_quiz w st q Hq).
    unfold with_session, defaults, running. by rewrite Hq. }
  assert (is_callback a →
          ∃ q', quiz (session (handler w a st).2) = Some q'
                ∧ biases q' = biases q ∧ answers q' = answers q)
    as Hcallback.
  { intros Hcb. rewrite (callback_quiz w a st _ _ _ _ _ Hcb Hst).
    destruct (handler_running w a (heap st) (next_loc st) q
                (default false (revealed (session st)))
                (default false (submitted (session st))) Hne)
      as (h' & q' & r' & s' & -> & Ha & Hb & _).
    exists q'. done. }
  destruct a; try done; try (by apply Hcallback).
  - cbn [handler]. rewrite get_state_store, Hst. exists q. done.
  - exists q. simpl. by rewrite Hq.
Qed.

Lemma quiz_claims_fixed_witness :
  let st := run example_trace init_store in
  let q := example_quiz 2 in
  (quiz (session st) = Some q ∧ Prev ≠ Restart)
  ∧ ∃ q', quiz (session (handler empty_world Prev st).2) = Some q'
          ∧ biases q' = biases q ∧ answers q' = answers q.
Proof.
  intros st q.
  assert (quiz (session st) = Some q) as Hq by (vm_compute; reflexivity).
  assert (Prev ≠ Restart) as Hne by discriminate.
  split; [split; [exact Hq|exact Hne]|].
  exact (quiz_claims_fixed empty_world Prev st q Hq Hne).
Defined.
